(** * eagleproto: prototyping-board generator for Eagle CAD

    A shallow embedding of [eagleproto.py] and the proofs of its
    specification.

    Modelling conventions.
    - Python [int] is [Z]; [range n] is the list [0; 1; ...; n-1], empty
      when [n <= 0].
    - Python [float] is modelled by the exact rationals [Q]: the layout is
      coordinate arithmetic, and binary64 rounding, infinities and NaN are
      outside the model.  A float division raises [ZeroDivisionError] on a
      zero divisor, as in Python.
    - Python [str] is [string] (ASCII command-line text).
    - Exceptions are the constructors of [exn]; code that can raise returns
      a [result].
    - An [xml.etree] element is a tree [Element] with an ordered attribute
      list (Python dict literals keep their insertion order). *)

From Stdlib Require Import ZArith QArith Qround Qabs Bool List Sorted String.
From Stdlib Require Import Ascii.
From Stdlib Require Import FinFun Lia Lqa.
From Stdlib Require Import DecimalString DecimalZ.
Import ListNotations.

Local Open Scope string_scope.
Local Open Scope Z_scope.

(** ** Exceptions and results *)

Inductive exn : Type :=
| ArgumentTypeError (msg : string)   (* argparse.ArgumentTypeError *)
| ZeroDivisionError                  (* float division by zero *)
| ValueError                         (* int() / float() of a bad string *)
| TypeError.                         (* int(None) *)

Inductive result (A : Type) : Type :=
| Ok (a : A)
| Raise (e : exn).

Arguments Ok {A} a.
Arguments Raise {A} e.

Definition bind {A B : Type} (r : result A) (k : A -> result B) : result B :=
  match r with
  | Ok a => k a
  | Raise e => Raise e
  end.

Notation "x <- r ;; k" := (bind r (fun x => k))
  (at level 61, r at next level, right associativity).

(** ** Characters and digit strings *)

Definition is_digit (c : ascii) : bool :=
  let n := nat_of_ascii c in (48 <=? n)%nat && (n <=? 57)%nat.

Definition digit_val (c : ascii) : Z := Z.of_nat (nat_of_ascii c) - 48.

(** Value of a digit string read after an accumulator [acc]. *)
Fixpoint digits_val (acc : Z) (ds : list ascii) : Z :=
  match ds with
  | [] => acc
  | c :: t => digits_val (10 * acc + digit_val c) t
  end.

(** [int(s)] on the strings the program passes to it: a non-empty run of
    decimal digits gives its value (leading zeros allowed), anything else
    raises [ValueError]; [int(None)] raises [TypeError]. *)
Definition py_int (g : option string) : result Z :=
  match g with
  | None => Raise TypeError
  | Some s =>
      let cs := list_ascii_of_string s in
      match cs with
      | [] => Raise ValueError
      | _ => if forallb is_digit cs then Ok (digits_val 0 cs)
             else Raise ValueError
      end
  end.

(** ** A backtracking matcher for the regular expressions of the program

    The fragment of Python's [re] that [re_fract_str] uses: the greedy digit
    run [\d+], literal characters, concatenation, the greedy option [r?] and
    numbered capturing groups.  The matcher is written with a success
    continuation; a failing continuation makes it backtrack to the next
    alternative, in the order Python's engine tries them. *)

Module Re.

Inductive regex : Type :=
| Digits                      (* \d+ *)
| Chr (c : ascii)             (* a literal character *)
| Cat (r1 r2 : regex)         (* r1 r2 *)
| Opt (r : regex)             (* r? *)
| Group (n : nat) (r : regex) (* ( r ), capturing group number n *).

(** Captured groups, most recent binding first. *)
Definition groups := list (nat * string).

Fixpoint lookup (n : nat) (g : groups) : option string :=
  match g with
  | [] => None
  | (m, s) :: t => if Nat.eqb n m then Some s else lookup n t
  end.

(** The text consumed between the input [s] and its suffix [t]. *)
Definition consumed (s t : list ascii) : string :=
  string_of_list_ascii (firstn (List.length s - List.length t) s).

Section Matcher.
Context {A : Type}.

(** Greedy [\d+]: one digit, then as many more as the continuation
    accepts, longest first. *)
Fixpoint digits_plus (s : list ascii) (k : list ascii -> option A)
  : option A :=
  match s with
  | [] => None
  | c :: t =>
      if is_digit c then
        match digits_plus t k with
        | Some a => Some a
        | None => k t
        end
      else None
  end.

Fixpoint run (r : regex) (s : list ascii) (g : groups)
         (k : list ascii -> groups -> option A) : option A :=
  match r with
  | Digits => digits_plus s (fun t => k t g)
  | Chr c =>
      match s with
      | c' :: t => if Ascii.eqb c c' then k t g else None
      | [] => None
      end
  | Cat r1 r2 => run r1 s g (fun t g' => run r2 t g' k)
  | Opt r1 =>
      match run r1 s g k with
      | Some a => Some a
      | None => k s g
      end
  | Group n r1 => run r1 s g (fun t g' => k t ((n, consumed s t) :: g'))
  end.
End Matcher.

(** [re.compile(r).match(s)]: the pattern is tried at the start of [s]
    only, and anything may follow the matched text. *)
Definition rematch (r : regex) (s : string) : option groups :=
  run r (list_ascii_of_string s) [] (fun _ g => Some g).

(** [re.compile(r).fullmatch(s)]: the whole of [s] has to match. *)
Definition fullmatch (r : regex) (s : string) : option groups :=
  run r (list_ascii_of_string s) []
      (fun t g => match t with [] => Some g | _ :: _ => None end).

(** [m.group(n)]; [None] when the group took no part in the match. *)
Definition group (m : groups) (n : nat) : option string := lookup n m.

End Re.

(** ** Dimension arguments: [fract_arg] and [inch_arg] *)

(** [re_fract_str = "(((\d+)\+)?)(\d+)/(\d+)"] *)
Definition re_fract : Re.regex :=
  Re.Cat (Re.Group 1 (Re.Opt (Re.Group 2 (Re.Cat (Re.Group 3 Re.Digits)
                                                 (Re.Chr "+")))))
    (Re.Cat (Re.Group 4 Re.Digits)
       (Re.Cat (Re.Chr "/") (Re.Group 5 Re.Digits))).

(** Truth value of [m.group(n)] in an [if]: [None] and the empty string
    are false. *)
Definition truthy (g : option string) : bool :=
  match g with
  | None => false
  | Some s => negb (String.eqb s "")
  end.

(** Float division. *)
Definition py_div (x y : Q) : result Q :=
  if Qeq_bool y 0 then Raise ZeroDivisionError else Ok (x / y)%Q.

Definition fract_arg (s : string) : result Q :=
  match Re.rematch re_fract s with
  | None => Raise (ArgumentTypeError "bad argument value")
  | Some m =>
      base <- (if truthy (Re.group m 3) then py_int (Re.group m 3)
               else Ok 0) ;;
      num <- py_int (Re.group m 4) ;;
      denom <- py_int (Re.group m 5) ;;
      q <- py_div (1 * inject_Z num)%Q (1 * inject_Z denom)%Q ;;
      Ok (1 * inject_Z base + q)%Q
  end.

(** ** The builtin [float] on strings

    A model of [float(s)] for finite decimal literals, after the grammar of
    the Python reference: surrounding whitespace, an optional sign, a
    [number] (digits with an optional point, underscores allowed between
    digits) and an optional exponent.  [None] stands for [ValueError].  The
    literals [inf] and [nan] have no rational value and are not accepted by
    the model. *)

Module PyFloat.

Definition is_space (c : ascii) : bool :=
  let n := nat_of_ascii c in
  (n =? 32)%nat || ((9 <=? n)%nat && (n <=? 13)%nat)
  || ((28 <=? n)%nat && (n <=? 31)%nat).

Fixpoint lstrip (s : list ascii) : list ascii :=
  match s with
  | c :: t => if is_space c then lstrip t else s
  | [] => []
  end.

(** [sign]: the factor and the rest of the input. *)
Definition sign (s : list ascii) : Z * list ascii :=
  match s with
  | c :: t => if Ascii.eqb c "+" then (1, t)
              else if Ascii.eqb c "-" then (-1, t)
              else (1, s)
  | [] => (1, [])
  end.

(** [(["_"] digit)*] *)
Fixpoint digitpart_more (s : list ascii) : list ascii * list ascii :=
  match s with
  | c :: t =>
      if is_digit c then
        let '(ds, r) := digitpart_more t in (c :: ds, r)
      else if Ascii.eqb c "_" then
        match t with
        | d :: t' =>
            if is_digit d then
              let '(ds, r) := digitpart_more t' in (d :: ds, r)
            else ([], s)
        | [] => ([], s)
        end
      else ([], s)
  | [] => ([], [])
  end.

(** [digitpart ::= digit (["_"] digit)*] *)
Definition digitpart (s : list ascii) : option (list ascii * list ascii) :=
  match s with
  | c :: t =>
      if is_digit c then
        let '(ds, r) := digitpart_more t in Some (c :: ds, r)
      else None
  | [] => None
  end.

(** [number ::= [digitpart] "." digitpart | digitpart ["."]]: the integer
    digits, the fraction digits and the rest. *)
Definition number (s : list ascii)
  : option (list ascii * list ascii * list ascii) :=
  match digitpart s with
  | Some (ip, r) =>
      match r with
      | c :: r' =>
          if Ascii.eqb c "." then
            match digitpart r' with
            | Some (fp, r'') => Some (ip, fp, r'')
            | None => Some (ip, [], r')
            end
          else Some (ip, [], r)
      | [] => Some (ip, [], [])
      end
  | None =>
      match s with
      | c :: r' =>
          if Ascii.eqb c "." then
            match digitpart r' with
            | Some (fp, r'') => Some ([], fp, r'')
            | None => None
            end
          else None
      | [] => None
      end
  end.

(** [exponent ::= ("e" | "E") [sign] digitpart] *)
Definition exponent (s : list ascii) : option (Z * list ascii) :=
  match s with
  | c :: t =>
      if Ascii.eqb c "e" || Ascii.eqb c "E" then
        let '(sg, t') := sign t in
        match digitpart t' with
        | Some (ds, r) => Some (sg * digits_val 0 ds, r)
        | None => None
        end
      else None
  | [] => None
  end.

Definition parse (s : list ascii) : option Q :=
  let '(sg, s1) := sign (lstrip s) in
  match number s1 with
  | None => None
  | Some (ip, fp, r) =>
      let '(e, r') := match exponent r with
                      | Some (e, r') => (e, r')
                      | None => (0, r)
                      end in
      if forallb is_space r' then
        Some (inject_Z (sg * digits_val 0 (ip ++ fp))
              * 10 ^ (e - Z.of_nat (List.length fp)))%Q
      else None
  end.

End PyFloat.

Definition py_float (s : string) : option Q :=
  PyFloat.parse (list_ascii_of_string s).

Definition inch_arg (s : string) : result Q :=
  match py_float s with
  | Some value => Ok value          (* try: value = float(s) *)
  | None => fract_arg s             (* except: value = fract_arg(s) *)
  end.

(** ** argparse: converting one argument string

    A model of [ArgumentParser._get_value]: the [type] function is called
    once on the argument string; [ArgumentTypeError], [TypeError] and
    [ValueError] become a usage error ([parser.error]: the usage message is
    printed and the process exits with status 2); any other exception is
    not caught and ends the process with a traceback and status 1. *)

Inductive conversion (A : Type) : Type :=
| Converted (a : A)
| UsageError
| Uncaught (e : exn).

Arguments Converted {A} a.
Arguments UsageError {A}.
Arguments Uncaught {A} e.

Definition get_value {A : Type} (type_func : string -> result A)
           (arg_string : string) : conversion A :=
  match type_func arg_string with
  | Ok a => Converted a
  | Raise (ArgumentTypeError _) => UsageError
  | Raise ValueError => UsageError
  | Raise TypeError => UsageError
  | Raise e => Uncaught e
  end.

(** Exit status of the process when the conversion does not succeed. *)
Definition exit_status {A : Type} (c : conversion A) : option Z :=
  match c with
  | Converted _ => None
  | UsageError => Some 2
  | Uncaught _ => Some 1
  end.

(** ** Dimension strings, described by their text *)

(** A non-empty run of decimal digits. *)
Definition digit_string (ds : list ascii) : Prop :=
  ds <> [] /\ forallb is_digit ds = true.

Definition starts_with_digit (s : list ascii) : bool :=
  match s with
  | c :: _ => is_digit c
  | [] => false
  end.

(** The text [base+num/den], or [num/den] when there is no base. *)
Definition fraction_text (base : option (list ascii)) (num den : list ascii)
  : list ascii :=
  ((match base with
    | Some b => b ++ ["+"%char]
    | None => []
    end) ++ num ++ "/"%char :: den)%list.

Definition fraction_ok (base : option (list ascii)) (num den : list ascii)
  : Prop :=
  match base with
  | Some b => digit_string b
  | None => True
  end /\ digit_string num /\ digit_string den.

(** A string that begins with a fraction and goes on with [rest]. *)
Definition fraction_then (base : option (list ascii)) (num den : list ascii)
           (rest : list ascii) : string :=
  string_of_list_ascii (fraction_text base num den ++ rest).

(** The groups of [re_fract] on such a string. *)
Definition fraction_groups (base : option (list ascii))
           (num den : list ascii) : Re.groups :=
  ((5%nat, string_of_list_ascii den) :: (4%nat, string_of_list_ascii num)
   :: match base with
      | Some b =>
          [ (1%nat, string_of_list_ascii (b ++ ["+"%char]));
            (2%nat, string_of_list_ascii (b ++ ["+"%char]));
            (3%nat, string_of_list_ascii b) ]
      | None => [ (1%nat, "") ]
      end)%list.

(** The number a fraction stands for, as [fract_arg] computes it. *)
Definition fraction_value (base : option (list ascii)) (num den : list ascii)
  : Q :=
  (1 * inject_Z (match base with
                 | Some b => digits_val 0 b
                 | None => 0
                 end)
   + (1 * inject_Z (digits_val 0 num)) / (1 * inject_Z (digits_val 0 den)))%Q.

(** A malformed dimension string in the words of the specification:
    neither a decimal number nor, as a whole, in the integer-plus-fraction
    notation. *)
Definition malformed (s : string) : bool :=
  match py_float s, Re.fullmatch re_fract s with
  | None, None => true
  | _, _ => false
  end.

(** ** Formatting *)

(** ["%d" % n] *)
Definition fmt_d (n : Z) : string := NilEmpty.string_of_int (Z.to_int n).

(** The thousandths nearest to [x], ties to even: the digits that
    ["%.3f" % x] prints, without the sign. *)
Definition round3 (x : Q) : Z :=
  let d := Zpos (Qden x) in
  let a := Z.abs (Qnum x) * 1000 in
  let q := a / d in
  let r := a mod d in
  if (d <? 2 * r) || ((d =? 2 * r) && Z.odd q) then q + 1 else q.

Definition digit_char (n : Z) : ascii := ascii_of_nat (48 + Z.to_nat n).

(** ["%.3f" % x]: sign, integer part, point, three decimals. *)
Definition fmt3 (x : Q) : string :=
  let m := round3 x in
  let sign := if Qnum x <? 0 then "-" else "" in
  let frac := String (digit_char (m / 100 mod 10))
                (String (digit_char (m / 10 mod 10))
                   (String (digit_char (m mod 10)) "")) in
  (sign ++ fmt_d (m / 1000) ++ "." ++ frac)%string.

(** ** The parsed command line *)

Record Args : Type := mkArgs {
  args_width : Q;          (* width *)
  args_length : Q;         (* length *)
  args_w : option Z;       (* -w, None when absent *)
  args_l : option Z;       (* -l, None when absent *)
  args_grid : Q;           (* --grid, default 0.1 *)
  args_drill : Q;          (* --drill, default 0.042 *)
  args_pad : Q;            (* --pad, default 0.075 *)
  args_no_mtg : bool;      (* --no-mtg *)
  args_mtg : Q;            (* --mtg, default 0.125 *)
  args_inset : Q;          (* --inset, default 0.1875 *)
  args_corner : Z          (* --corner, default 3 *)
}.

(** ** XML elements *)

#[local] Unset Elimination Schemes.
Inductive Element : Type :=
| Elem (tag : string) (attrib : list (string * string))
       (children : list Element).
#[local] Set Elimination Schemes.

Definition tag_of (e : Element) : string :=
  match e with Elem t _ _ => t end.

Definition attrib_of (e : Element) : list (string * string) :=
  match e with Elem _ a _ => a end.

Definition children_of (e : Element) : list Element :=
  match e with Elem _ _ c => c end.

(** ** The script *)

Section Script.
Variable args : Args.

Definition width : Q := args_width args.
Definition height : Q := args_length args.
Definition inset : Q := args_inset args.

Definition mtg_hole_dia : option Q :=
  if args_no_mtg args then None else Some (args_mtg args).

Definition grid_pitch : Q := args_grid args.
Definition pad_drill : Q := args_drill args.
Definition pad_dia : Q := args_pad args.

Definition border : Q := 0.015%Q.

Definition exclude_corner_pads : Z := args_corner args.

Definition pads_h : result Z :=
  match args_l args with
  | Some n => Ok n
  | None => q <- py_div (height - border)%Q grid_pitch ;; Ok (Qfloor q)
  end.

Definition pads_w : result Z :=
  match args_w args with
  | Some n => Ok n
  | None => q <- py_div (width - border)%Q grid_pitch ;; Ok (Qfloor q)
  end.

(** [for x in (inset, width - inset): for y in (inset, height - inset)] *)
Definition holes : list (Q * Q) :=
  flat_map (fun x => map (fun y => (x, y)) [inset; (height - inset)%Q])
           [inset; (width - inset)%Q].

(** Square of [distance c1 c2]. *)
Definition distance2 (c1 c2 : Q * Q) : Q :=
  ((fst c2 - fst c1) ^ 2 + (snd c2 - snd c1) ^ 2)%Q.

(** [too_close]: the test [distance((x, y), h) < threshold] is written
    without the square root, which is the same test for the non-negative
    thresholds.  Nothing in the script calls this function. *)
Definition too_close (x y threshold : Q) : bool :=
  existsb (fun h => negb (Qle_bool (threshold ^ 2) (distance2 (x, y) h)))
          holes.

Definition in_to_mm (x : Q) : Q := (x * 25.4)%Q.
End Script.

Record Layer : Type := mkLayer {
  number : string; name : string; color : string;
  fill : string; visible : string; active : string
}.

(** [l._asdict()] *)
Definition asdict (l : Layer) : list (string * string) :=
  [("number", number l); ("name", name l); ("color", color l);
   ("fill", fill l); ("visible", visible l); ("active", active l)].

Definition layers_list : list Layer :=
  [
    mkLayer "1" "Top" "4" "1" "yes" "yes";
    mkLayer "2" "Route2" "1" "3" "no" "no";
    mkLayer "3" "Route3" "4" "3" "no" "no";
    mkLayer "4" "Route4" "1" "4" "no" "no";
    mkLayer "5" "Route5" "4" "4" "no" "no";
    mkLayer "6" "Route6" "1" "8" "no" "no";
    mkLayer "7" "Route7" "4" "8" "no" "no";
    mkLayer "8" "Route8" "1" "2" "no" "no";
    mkLayer "9" "Route9" "4" "2" "no" "no";
    mkLayer "10" "Route10" "1" "7" "no" "no";
    mkLayer "11" "Route11" "4" "7" "no" "no";
    mkLayer "12" "Route12" "1" "5" "no" "no";
    mkLayer "13" "Route13" "4" "5" "no" "no";
    mkLayer "14" "Route14" "1" "6" "no" "no";
    mkLayer "15" "Route15" "4" "6" "no" "no";
    mkLayer "16" "Bottom" "1" "1" "yes" "yes";
    mkLayer "17" "Pads" "2" "1" "yes" "yes";
    mkLayer "18" "Vias" "2" "1" "yes" "yes";
    mkLayer "19" "Unrouted" "6" "1" "yes" "yes";
    mkLayer "20" "Dimension" "15" "1" "yes" "yes";
    mkLayer "21" "tPlace" "7" "1" "yes" "yes";
    mkLayer "22" "bPlace" "7" "1" "yes" "yes";
    mkLayer "23" "tOrigins" "15" "1" "yes" "yes";
    mkLayer "24" "bOrigins" "15" "1" "yes" "yes";
    mkLayer "25" "tNames" "7" "1" "yes" "yes";
    mkLayer "26" "bNames" "7" "1" "yes" "yes";
    mkLayer "27" "tValues" "7" "1" "yes" "yes";
    mkLayer "28" "bValues" "7" "1" "yes" "yes";
    mkLayer "29" "tStop" "7" "3" "no" "yes";
    mkLayer "30" "bStop" "7" "6" "no" "yes";
    mkLayer "31" "tCream" "7" "4" "no" "yes";
    mkLayer "32" "bCream" "7" "5" "no" "yes";
    mkLayer "33" "tFinish" "6" "3" "no" "yes";
    mkLayer "34" "bFinish" "6" "6" "no" "yes";
    mkLayer "35" "tGlue" "7" "4" "no" "yes";
    mkLayer "36" "bGlue" "7" "5" "no" "yes";
    mkLayer "37" "tTest" "7" "1" "no" "yes";
    mkLayer "38" "bTest" "7" "1" "no" "yes";
    mkLayer "39" "tKeepout" "4" "11" "yes" "yes";
    mkLayer "40" "bKeepout" "1" "11" "yes" "yes";
    mkLayer "41" "tRestrict" "4" "10" "yes" "yes";
    mkLayer "42" "bRestrict" "1" "10" "yes" "yes";
    mkLayer "43" "vRestrict" "2" "10" "yes" "yes";
    mkLayer "44" "Drills" "7" "1" "no" "yes";
    mkLayer "45" "Holes" "7" "1" "yes" "yes";
    mkLayer "46" "Milling" "3" "1" "no" "yes";
    mkLayer "47" "Measures" "7" "1" "no" "yes";
    mkLayer "48" "Document" "7" "1" "yes" "yes";
    mkLayer "49" "Reference" "7" "1" "yes" "yes";
    mkLayer "51" "tDocu" "7" "1" "yes" "yes";
    mkLayer "52" "bDocu" "7" "1" "yes" "yes" ].

(** [range(n)] *)
Definition range (n : Z) : list Z := map Z.of_nat (seq 0 (Z.to_nat n)).

(** The test of the [continue] statement in the pad loop. *)
Definition excluded (no_mtg : bool) (exclude_corner_pads pads_w pads_h : Z)
           (i j : Z) : bool :=
  negb no_mtg
  && ((i <? exclude_corner_pads) || (i >=? pads_w - exclude_corner_pads))
  && ((j <? exclude_corner_pads) || (j >=? pads_h - exclude_corner_pads)).

(** One pad of the grid: the loop indices it was made at, its position in
    inches and its signal number. *)
Record Pad : Type := mkPad {
  pad_i : Z; pad_j : Z; pad_x : Q; pad_y : Q; pad_signal : Z
}.

Section Board.
Variable args : Args.
(** The values of the globals [pads_w] and [pads_h]. *)
Variables pw ph : Z.

Definition wire (x1 y1 x2 y2 : Q) : Element :=
  Elem "wire" [("x1", fmt3 x1); ("y1", fmt3 y1);
               ("x2", fmt3 x2); ("y2", fmt3 y2);
               ("width", "0"); ("layer", "20")] [].

(** The board outline; ["%.3f" % 0] formats the integer 0. *)
Definition outline : list Element :=
  [ wire (inject_Z 0) (inject_Z 0) (inject_Z 0) (in_to_mm (height args));
    wire (inject_Z 0) (in_to_mm (height args))
         (in_to_mm (width args)) (in_to_mm (height args));
    wire (in_to_mm (width args)) (in_to_mm (height args))
         (in_to_mm (width args)) (inject_Z 0);
    wire (in_to_mm (width args)) (inject_Z 0) (inject_Z 0) (inject_Z 0) ].

(** In the branch that emits the holes [mtg_hole_dia] is [args.mtg]. *)
Definition hole_element (h : Q * Q) : Element :=
  Elem "hole" [("x", fmt3 (in_to_mm (fst h)));
               ("y", fmt3 (in_to_mm (snd h)));
               ("drill", fmt3 (in_to_mm (args_mtg args)))] [].

Definition plain : Element :=
  Elem "plain" []
    (outline ++
     (if negb (args_no_mtg args) then map hole_element (holes args)
      else []))%list.

Definition pad_x_orig : Q :=
  ((width args - inject_Z (pw - 1) * grid_pitch args) / 2)%Q.
Definition pad_y_orig : Q :=
  ((height args - inject_Z (ph - 1) * grid_pitch args) / 2)%Q.

(** The body of the inner loop on the state [(signal_number, pads)]. *)
Definition pad_body (i : Z) (x : Q) (st : Z * list Pad) (j : Z)
  : Z * list Pad :=
  let y := (pad_y_orig + inject_Z j * grid_pitch args)%Q in
  if excluded (args_no_mtg args) (exclude_corner_pads args) pw ph i j
  then st                                            (* continue *)
  else
    let signal_number := fst st + 1 in
    (signal_number, (snd st ++ [mkPad i j x y signal_number])%list).

Definition pad_column (st : Z * list Pad) (i : Z) : Z * list Pad :=
  let x := (pad_x_orig + inject_Z i * grid_pitch args)%Q in
  fold_left (pad_body i x) (range ph) st.

Definition pad_loop : Z * list Pad :=
  fold_left pad_column (range pw) (0, []).

Definition pads : list Pad := snd pad_loop.

Definition via_element (p : Pad) : Element :=
  Elem "via" [("x", fmt3 (in_to_mm (pad_x p)));
              ("y", fmt3 (in_to_mm (pad_y p)));
              ("extent", "1-16");
              ("drill", fmt3 (in_to_mm (pad_drill args)));
              ("diameter", fmt3 (in_to_mm (pad_dia args)))] [].

(** The [signal] element appended for a pad, with its [via]. *)
Definition signal_element (p : Pad) : Element :=
  Elem "signal" [("name", ("S$" ++ fmt_d (pad_signal p))%string)]
    [via_element p].

Definition signals : Element :=
  Elem "signals" [] (map signal_element pads).

Definition board : Element := Elem "board" [] [plain; signals].

Definition settings : Element :=
  Elem "settings" []
    [ Elem "setting" [("alwaysvectorfont", "no")] [];
      Elem "setting" [("verticaltext", "up")] [] ].

Definition grid : Element :=
  Elem "grid" [("distance", "0.050"); ("unitdist", "inch");
               ("unit", "inch"); ("style", "lines"); ("multiple", "1");
               ("display", "no"); ("altdistance", "0.025");
               ("altunitdist", "inch"); ("altunit", "inch")] [].

Definition layers : Element :=
  Elem "layers" [] (map (fun l => Elem "layer" (asdict l) []) layers_list).

Definition drawing : Element :=
  Elem "drawing" [] [settings; grid; layers; board].

Definition eagle : Element :=
  Elem "eagle" [("version", "6.5.0")] [drawing].
End Board.

(** The whole script on a parsed command line: the pad counts are resolved
    ([pads_h] first), then the document is built; the result is the root
    element handed to [doc.write]. *)
Definition script (args : Args) : result Element :=
  h <- pads_h args ;;
  w <- pads_w args ;;
  Ok (eagle args w h).

(** ** Reading the document back *)

(** All elements of a tree in document order, as [Element.iter()]. *)
Fixpoint iter (e : Element) : list Element :=
  match e with
  | Elem _ _ cs => e :: flat_map iter cs
  end.

Definition has_tag (t : string) (e : Element) : bool :=
  String.eqb (tag_of e) t.

(** [doc.iter(t)]: the elements with tag [t], in document order. *)
Definition iter_tag (t : string) (doc : Element) : list Element :=
  filter (has_tag t) (iter doc).

(** [e.get(k)] *)
Fixpoint get (k : string) (a : list (string * string)) : option string :=
  match a with
  | [] => None
  | (k', v) :: t => if String.eqb k k' then Some v else get k t
  end.

(** ** The layout, stated on index pairs *)

Section Layout.
Variable args : Args.
Variables pw ph : Z.

(** The index pairs the loops visit, in the order they visit them. *)
Definition all_indices : list (Z * Z) :=
  flat_map (fun i => map (pair i) (range ph)) (range pw).

Definition survives (ij : Z * Z) : bool :=
  negb (excluded (args_no_mtg args) (exclude_corner_pads args) pw ph
                 (fst ij) (snd ij)).

Definition surviving : list (Z * Z) := filter survives all_indices.

(** The position computed for an index pair. *)
Definition position (ij : Z * Z) : Q * Q :=
  ((pad_x_orig args pw + inject_Z (fst ij) * grid_pitch args)%Q,
   (pad_y_orig args ph + inject_Z (snd ij) * grid_pitch args)%Q).

(** Pads for a list of index pairs, numbered upwards from [n + 1]. *)
Fixpoint number_from (n : Z) (l : list (Z * Z)) : list Pad :=
  match l with
  | [] => []
  | ij :: t =>
      mkPad (fst ij) (snd ij) (fst (position ij)) (snd (position ij))
            (n + 1)
      :: number_from (n + 1) t
  end.
End Layout.

Definition pad_index (p : Pad) : Z * Z := (pad_i p, pad_j p).
Definition pad_position (p : Pad) : Q * Q := (pad_x p, pad_y p).

(** Column-major order on index pairs: by [i], then by [j]. *)
Definition column_major (a b : Z * Z) : Prop :=
  fst a < fst b \/ (fst a = fst b /\ snd a < snd b).

(** The name of signal number [n], as [e.get("name")] returns it. *)
Definition signal_name (n : Z) : option string :=
  Some ("S$" ++ fmt_d n)%string.

(** The [name] attributes of the [signal] elements, in document order. *)
Definition signal_names (doc : Element) : list (option string) :=
  map (fun e => get "name" (attrib_of e)) (iter_tag "signal" doc).

Definition Qsum (l : list Q) : Q := fold_right Qplus 0%Q l.

Definition mean (l : list Q) : Q :=
  (Qsum l / inject_Z (Z.of_nat (List.length l)))%Q.

(** ** Coordinates and diameters of the document *)

Definition is_length_key (k : string) : bool :=
  existsb (String.eqb k) ["x1"; "y1"; "x2"; "y2"; "x"; "y"; "drill";
                          "diameter"].

(** The coordinate and diameter attributes of one element. *)
Definition lengths_of (e : Element) : list string :=
  flat_map (fun kv => if is_length_key (fst kv) then [snd kv] else [])
           (attrib_of e).

(** Every coordinate and diameter written, in document order. *)
Definition lengths (doc : Element) : list string :=
  flat_map lengths_of (iter doc).

(** The inch values behind them, in the same order: the four outline
    wires, the mounting holes with their diameter, the pads with the drill
    and pad diameters. *)
Definition inch_values (args : Args) (pw ph : Z) : list Q :=
  ([ 0; 0; 0; height args;
     0; height args; width args; height args;
     width args; height args; width args; 0;
     width args; 0; 0; 0 ]%Q
   ++ (if args_no_mtg args then []
       else flat_map (fun h => [fst h; snd h; args_mtg args]) (holes args))
   ++ flat_map (fun p => [pad_x p; pad_y p; pad_drill args; pad_dia args])
        (pads args pw ph))%list.

(** ** Sample command lines *)

(** [eagleproto.py 2 2 out.brd -w 2 -l 2 --grid 1 --no-mtg] *)
Definition board_2x2 : Args :=
  mkArgs 2 2 (Some 2) (Some 2) 1 0.042 0.075 true 0.125 0.1875 3.

(** [eagleproto.py 2 2 out.brd -w 2 -l 2 --grid 1] *)
Definition board_2x2_mtg : Args :=
  mkArgs 2 2 (Some 2) (Some 2) 1 0.042 0.075 false 0.125 0.1875 3.

(** [eagleproto.py 2 3 out.brd]: every option at its default. *)
Definition board_2x3_default : Args :=
  mkArgs 2 3 None None 0.1 0.042 0.075 false 0.125 0.1875 3.

(** ** Corner blocks *)

(** The index test of [excluded] along one axis of [n] pads. *)
Definition in_corner (c n i : Z) : bool := (i <? c) || (i >=? n - c).

(** [eagleproto.py 2 2 out.brd -w 2 -l 2 --grid 1 --corner 0] *)
Definition board_2x2_corner0 : Args :=
  mkArgs 2 2 (Some 2) (Some 2) 1 0.042 0.075 false 0.125 0.1875 0.

(** [eagleproto.py 0.1 3 out.brd]: narrower than one pitch and the border. *)
Definition board_narrow : Args :=
  mkArgs 0.1 3 None None 0.1 0.042 0.075 false 0.125 0.1875 3.

(** The longest run of digits at the start of a text, and what follows. *)
Fixpoint span_digits (s : list ascii) : list ascii * list ascii :=
  match s with
  | c :: t =>
      if is_digit c then let '(ds, r) := span_digits t in (c :: ds, r)
      else ([], s)
  | [] => ([], [])
  end.

(** A string begins with a fraction. *)
Definition begins_with_fraction (s : string) : Prop :=
  exists base num den rest,
    fraction_ok base num den /\ starts_with_digit rest = false /\
    s = fraction_then base num den rest.

(** The two ends of a [wire], as written: [(x1, y1)] and [(x2, y2)]. *)
Definition wire_ends (e : Element)
  : (option string * option string) * (option string * option string) :=
  ((get "x1" (attrib_of e), get "y1" (attrib_of e)),
   (get "x2" (attrib_of e), get "y2" (attrib_of e))).

(** Two pads of [board_2x2]. *)
Definition pad_2x2_first : Pad := mkPad 0 0 (1 # 2) (1 # 2) 1.
Definition pad_2x2_third : Pad := mkPad 1 0 (3 # 2) (1 # 2) 3.

(** [eagleproto.py 3 3 out.brd] *)
Definition board_3x3_default : Args :=
  mkArgs 3 3 None None 0.1 0.042 0.075 false 0.125 0.1875 3.

(** * Proofs *)

(** ** The pad loop *)

Section PadLoop.
Variable args : Args.
Variables pw ph : Z.

Local Abbreviation survives := (survives args pw ph).
Local Abbreviation surviving := (surviving args pw ph).
Local Abbreviation position := (position args pw ph).
Local Abbreviation number_from := (number_from args pw ph).

Lemma number_from_app n l1 l2 :
  number_from n (l1 ++ l2) =
  (number_from n l1 ++ number_from (n + Z.of_nat (List.length l1)) l2)%list.
Proof.
  revert n; induction l1 as [|ij l1 IH]; intros n; simpl.
  - now rewrite Z.add_0_r.
  - rewrite IH. do 3 f_equal. lia.
Qed.

Lemma pad_row i js : forall st,
  fold_left (pad_body args pw ph i (fst (position (i, 0)))) js st =
  let l := filter survives (map (pair i) js) in
  (fst st + Z.of_nat (List.length l),
   (snd st ++ number_from (fst st) l)%list).
Proof.
  induction js as [|j js IH]; intros [n acc]; cbn [fold_left map filter].
  - cbn. now rewrite Z.add_0_r, app_nil_r.
  - rewrite IH. unfold pad_body, survives. cbn [fst snd].
    destruct (excluded _ _ _ _ i j); cbn [negb fst snd].
    + reflexivity.
    + cbn [number_from List.length]. rewrite <- app_assoc. cbn [app].
      f_equal. lia.
Qed.

Lemma pad_columns cols : forall st,
  fold_left (pad_column args pw ph) cols st =
  let l := filter survives
             (flat_map (fun i => map (pair i) (range ph)) cols) in
  (fst st + Z.of_nat (List.length l),
   (snd st ++ number_from (fst st) l)%list).
Proof.
  induction cols as [|i cols IH]; intros [n acc]; cbn [fold_left flat_map].
  - cbn. now rewrite Z.add_0_r, app_nil_r.
  - rewrite IH. unfold pad_column.
    change (pad_x_orig args pw + inject_Z i * grid_pitch args)%Q
      with (fst (position (i, 0))).
    rewrite pad_row. cbn [fst snd].
    rewrite filter_app, length_app, number_from_app, <- app_assoc.
    f_equal. lia.
Qed.

(** The loop emits the surviving index pairs, numbered from 1. *)
Lemma pads_spec : pads args pw ph = number_from 0 surviving.
Proof.
  unfold pads, pad_loop. now rewrite pad_columns.
Qed.

Lemma signal_number_spec :
  fst (pad_loop args pw ph) = Z.of_nat (List.length surviving).
Proof.
  unfold pad_loop. now rewrite pad_columns.
Qed.

Lemma number_from_indices n l :
  map pad_index (number_from n l) = l.
Proof.
  revert n; induction l as [|[i j] l IH]; intros n; simpl; [|rewrite IH];
    reflexivity.
Qed.

Lemma number_from_positions n l :
  map pad_position (number_from n l) = map position l.
Proof.
  revert n; induction l as [|[i j] l IH]; intros n; simpl; [|rewrite IH];
    reflexivity.
Qed.

Lemma number_from_signals n l :
  map pad_signal (number_from n l) =
  map (fun k => n + Z.of_nat k) (seq 1 (List.length l)).
Proof.
  revert n; induction l as [|ij l IH]; intros n; simpl.
  - reflexivity.
  - rewrite IH. f_equal.
    rewrite <- (seq_shift _ 1), map_map.
    apply map_ext. intros k. lia.
Qed.

Lemma number_from_length n l :
  List.length (number_from n l) = List.length l.
Proof.
  revert n; induction l as [|ij l IH]; intros n; simpl; [|rewrite IH];
    reflexivity.
Qed.
End PadLoop.

(** ** Reading the generated document *)

Section Document.
Variable args : Args.
Variables pw ph : Z.

Lemma iter_signal_elements (t : string) (l : list Pad) :
  filter (has_tag t) (flat_map iter (map (signal_element args) l)) =
  flat_map (fun p => filter (has_tag t)
                       [signal_element args p; via_element args p]) l.
Proof.
  induction l as [|p l IH]; [reflexivity|].
  cbn [map flat_map]. rewrite filter_app, IH. reflexivity.
Qed.

(** The elements of the document, in document order. *)
Lemma iter_eagle :
  iter (eagle args pw ph) =
  ([eagle args pw ph; drawing args pw ph; settings]
     ++ children_of settings
     ++ [grid; layers]
     ++ children_of layers
     ++ [board args pw ph; plain args]
     ++ children_of (plain args)
     ++ [signals args pw ph]
     ++ flat_map iter (map (signal_element args) (pads args pw ph)))%list.
Proof.
  assert (Hs : iter settings = settings :: children_of settings)
    by reflexivity.
  assert (Hg : iter grid = [grid]) by reflexivity.
  assert (Hl : iter layers = layers :: children_of layers)
    by reflexivity.
  assert (Hp : iter (plain args) = plain args :: children_of (plain args)).
  { unfold plain. destruct (args_no_mtg args); reflexivity. }
  unfold eagle, drawing, board, signals.
  cbn [iter flat_map app]. rewrite !app_nil_r.
  fold settings. rewrite Hs, Hg, Hl, Hp. reflexivity.
Qed.

Lemma flat_map_singleton {A B : Type} (f : A -> B) (l : list A) :
  flat_map (fun x => [f x]) l = map f l.
Proof.
  induction l as [|x l IH]; [reflexivity|]. cbn. now rewrite IH.
Qed.

Lemma iter_tag_signal :
  iter_tag "signal" (eagle args pw ph) =
  map (signal_element args) (pads args pw ph).
Proof.
  unfold iter_tag. rewrite iter_eagle, !filter_app, iter_signal_elements.
  replace (filter (has_tag "signal") (children_of (plain args)))
    with (@nil Element)
    by (unfold plain; destruct (args_no_mtg args); reflexivity).
  cbn. apply flat_map_singleton.
Qed.

Lemma iter_tag_via :
  iter_tag "via" (eagle args pw ph) =
  map (via_element args) (pads args pw ph).
Proof.
  unfold iter_tag. rewrite iter_eagle, !filter_app, iter_signal_elements.
  replace (filter (has_tag "via") (children_of (plain args)))
    with (@nil Element)
    by (unfold plain; destruct (args_no_mtg args); reflexivity).
  cbn. apply flat_map_singleton.
Qed.

Lemma no_hole_in_signals (l : list Pad) :
  flat_map (fun p => filter (has_tag "hole")
                       [signal_element args p; via_element args p]) l = [].
Proof.
  induction l as [|p l IH]; [reflexivity|]. cbn. exact IH.
Qed.

Lemma no_wire_in_signals (l : list Pad) :
  flat_map (fun p => filter (has_tag "wire")
                       [signal_element args p; via_element args p]) l = [].
Proof.
  induction l as [|p l IH]; [reflexivity|]. cbn. exact IH.
Qed.

Lemma iter_tag_hole :
  iter_tag "hole" (eagle args pw ph) =
  if args_no_mtg args then []
  else map (hole_element args) (holes args).
Proof.
  unfold iter_tag.
  rewrite iter_eagle, !filter_app, iter_signal_elements,
    no_hole_in_signals.
  unfold plain. destruct (args_no_mtg args); reflexivity.
Qed.

Lemma iter_tag_wire :
  iter_tag "wire" (eagle args pw ph) = outline args.
Proof.
  unfold iter_tag.
  rewrite iter_eagle, !filter_app, iter_signal_elements,
    no_wire_in_signals.
  unfold plain. destruct (args_no_mtg args); reflexivity.
Qed.
End Document.

(** ** Ranges and index pairs *)

Lemma range_length n : List.length (range n) = Z.to_nat n.
Proof. unfold range. now rewrite length_map, length_seq. Qed.

Lemma range_In n i : In i (range n) <-> 0 <= i < n.
Proof.
  unfold range. rewrite in_map_iff. split.
  - intros [k [<- Hk]]. apply in_seq in Hk. lia.
  - intros H. exists (Z.to_nat i). rewrite in_seq. split; lia.
Qed.

Lemma seq_sorted start len :
  StronglySorted lt (seq start len).
Proof.
  revert start; induction len as [|len IH]; intros start; cbn;
    constructor; [apply IH|].
  apply Forall_forall. intros k Hk. apply in_seq in Hk. lia.
Qed.

Lemma StronglySorted_map {A B : Type} (R : A -> A -> Prop)
      (S : B -> B -> Prop) (f : A -> B) (l : list A) :
  (forall x y, R x y -> S (f x) (f y)) ->
  StronglySorted R l -> StronglySorted S (map f l).
Proof.
  intros Hf. induction 1 as [|x l Hl IH Hx]; cbn; constructor; [exact IH|].
  apply Forall_map. revert Hx. apply Forall_impl. intros y. apply Hf.
Qed.

Lemma StronglySorted_filter {A : Type} (R : A -> A -> Prop)
      (f : A -> bool) (l : list A) :
  StronglySorted R l -> StronglySorted R (filter f l).
Proof.
  induction 1 as [|x l Hl IH Hx]; cbn; [constructor|].
  destruct (f x); [|exact IH].
  constructor; [exact IH|].
  apply Forall_forall. intros y Hy. apply filter_In in Hy.
  rewrite Forall_forall in Hx. now apply Hx.
Qed.

Lemma range_sorted n : StronglySorted Z.lt (range n).
Proof.
  unfold range. apply StronglySorted_map with (R := lt); [lia|].
  apply seq_sorted.
Qed.

Lemma all_indices_In pw ph i j :
  In (i, j) (all_indices pw ph) <-> 0 <= i < pw /\ 0 <= j < ph.
Proof.
  unfold all_indices. rewrite in_flat_map. split.
  - intros [i' [Hi Hj]]. apply in_map_iff in Hj.
    destruct Hj as [j' [Heq Hj]]. inversion Heq; subst.
    now rewrite range_In in Hi, Hj.
  - intros [Hi Hj]. exists i. rewrite range_In. split; [exact Hi|].
    apply in_map. now apply range_In.
Qed.

Lemma all_indices_length pw ph :
  List.length (all_indices pw ph) = (Z.to_nat pw * Z.to_nat ph)%nat.
Proof.
  unfold all_indices.
  rewrite (flat_map_constant_length (c := Z.to_nat ph)).
  - now rewrite range_length.
  - intros i _. now rewrite length_map, range_length.
Qed.

Lemma columns_sorted ph (cols : list Z) :
  StronglySorted Z.lt cols ->
  StronglySorted column_major
    (flat_map (fun i => map (pair i) (range ph)) cols).
Proof.
  induction 1 as [|i cols Hc IH Hi]; cbn; [constructor|].
  assert (Hrow : forall js, StronglySorted Z.lt js ->
            Forall (fun j => forall b,
                      In b (flat_map (fun i => map (pair i) (range ph)) cols)
                      -> column_major (i, j) b) js ->
            StronglySorted column_major
              (map (pair i) js ++
               flat_map (fun i => map (pair i) (range ph)) cols)).
  { induction 1 as [|j js Hjs IHjs Hj]; intros Hall; cbn; [exact IH|].
    inversion Hall as [|? ? Hhd Htl]; subst.
    constructor; [now apply IHjs|].
    apply Forall_app; split.
    - apply Forall_map. revert Hj. apply Forall_impl.
      intros j' Hlt. right. cbn. lia.
    - apply Forall_forall. exact Hhd. }
  apply Hrow; [apply range_sorted|].
  apply Forall_forall. intros j _ [i' j'] Hb.
  apply in_flat_map in Hb. destruct Hb as [i'' [Hin Hb]].
  apply in_map_iff in Hb. destruct Hb as [j'' [Heq _]].
  inversion Heq; subst. left. cbn.
  rewrite Forall_forall in Hi. now apply Hi.
Qed.

Lemma all_indices_sorted pw ph :
  StronglySorted column_major (all_indices pw ph).
Proof. apply columns_sorted, range_sorted. Qed.

(** ** Signal names *)

Lemma fmt_d_inj a b : fmt_d a = fmt_d b -> a = b.
Proof.
  unfold fmt_d. intros H. apply DecimalZ.to_int_inj.
  assert (Some (Z.to_int a) = Some (Z.to_int b)) as Hs
      by (rewrite <- !NilEmpty.isi; now rewrite H).
  now inversion Hs.
Qed.

Lemma signal_name_inj a b : signal_name a = signal_name b -> a = b.
Proof.
  unfold signal_name. intros H. inversion H. now apply fmt_d_inj.
Qed.

Lemma script_resolved args pw ph :
  pads_w args = Ok pw -> pads_h args = Ok ph ->
  script args = Ok (eagle args pw ph).
Proof.
  intros Hw Hh. unfold script. now rewrite Hh, Hw.
Qed.

Lemma signal_names_eagle args pw ph :
  signal_names (eagle args pw ph) =
  map signal_name (map pad_signal (pads args pw ph)).
Proof.
  unfold signal_names. rewrite iter_tag_signal, !map_map. reflexivity.
Qed.

(** ** Pads, indices and signals *)

Lemma surviving_no_mtg args pw ph :
  args_no_mtg args = true -> surviving args pw ph = all_indices pw ph.
Proof.
  intros H. unfold surviving. apply forallb_filter_id, forallb_forall.
  intros ij _. unfold survives, excluded. now rewrite H.
Qed.

Lemma pads_indices args pw ph :
  map pad_index (pads args pw ph) = surviving args pw ph.
Proof. rewrite pads_spec. apply number_from_indices. Qed.

Lemma pads_signals args pw ph :
  map pad_signal (pads args pw ph) =
  map Z.of_nat (seq 1 (List.length (pads args pw ph))).
Proof.
  rewrite pads_spec, number_from_signals, number_from_length.
  apply map_ext. intros k. lia.
Qed.

Lemma pads_signals_NoDup args pw ph :
  NoDup (map pad_signal (pads args pw ph)).
Proof.
  rewrite pads_signals. apply Injective_map_NoDup; [|apply seq_NoDup].
  intros a b. lia.
Qed.

Lemma signal_names_NoDup args pw ph :
  NoDup (signal_names (eagle args pw ph)).
Proof.
  rewrite signal_names_eagle.
  apply Injective_map_NoDup; [|apply pads_signals_NoDup].
  intros a b. apply signal_name_inj.
Qed.

(** C1.  With mounting holes disabled and positive counts [pw], [ph], the
    script writes exactly [pw * ph] pads (one [signal] element holding one
    [via] each), whose signal numbers are 1, 2, ..., [pw * ph] in document
    order, each once, under the names [S$1] ... [S$count]. *)
Theorem pad_count_without_mounting (args : Args) (pw ph : Z) :
  pads_w args = Ok pw -> pads_h args = Ok ph ->
  0 < pw -> 0 < ph -> args_no_mtg args = true ->
  exists doc,
    script args = Ok doc /\
    iter_tag "signal" doc = map (signal_element args) (pads args pw ph) /\
    iter_tag "via" doc = map (via_element args) (pads args pw ph) /\
    Z.of_nat (List.length (iter_tag "via" doc)) = pw * ph /\
    map pad_signal (pads args pw ph) =
      map Z.of_nat (seq 1 (Z.to_nat (pw * ph))) /\
    signal_names doc =
      map (fun k => signal_name (Z.of_nat k)) (seq 1 (Z.to_nat (pw * ph))) /\
    NoDup (signal_names doc).
Proof.
  intros Hw Hh Hpw Hph Hmtg. exists (eagle args pw ph).
  assert (Hlen : List.length (pads args pw ph) = Z.to_nat (pw * ph)).
  { rewrite pads_spec, number_from_length, surviving_no_mtg by exact Hmtg.
    rewrite all_indices_length. lia. }
  repeat split.
  - now apply script_resolved.
  - apply iter_tag_signal.
  - apply iter_tag_via.
  - rewrite iter_tag_via, length_map, Hlen. lia.
  - now rewrite pads_signals, Hlen.
  - now rewrite signal_names_eagle, pads_signals, Hlen, map_map.
  - apply signal_names_NoDup.
Qed.

Lemma pad_count_without_mounting_witness :
  (pads_w board_2x2 = Ok 2 /\ pads_h board_2x2 = Ok 2 /\
   0 < 2 /\ 0 < 2 /\ args_no_mtg board_2x2 = true) /\
  exists doc,
    script board_2x2 = Ok doc /\
    iter_tag "signal" doc =
      map (signal_element board_2x2) (pads board_2x2 2 2) /\
    iter_tag "via" doc = map (via_element board_2x2) (pads board_2x2 2 2) /\
    Z.of_nat (List.length (iter_tag "via" doc)) = 2 * 2 /\
    map pad_signal (pads board_2x2 2 2) =
      map Z.of_nat (seq 1 (Z.to_nat (2 * 2))) /\
    signal_names doc =
      map (fun k => signal_name (Z.of_nat k)) (seq 1 (Z.to_nat (2 * 2))) /\
    NoDup (signal_names doc).
Proof.
  split.
  - repeat split; reflexivity.
  - apply (pad_count_without_mounting board_2x2 2 2); reflexivity.
Defined.

(** C2.  A pad index pair of the grid is left out of the output exactly
    when mounting is enabled and both indices lie within
    [exclude_corner_pads] of an end of their range; the set of emitted index
    pairs is the same for every command line with the same [--no-mtg] and
    [--corner] and the same counts, whatever the board size, the inset of
    the mounting holes or the pitch are. *)
Theorem pad_omitted_iff_in_corner_block (args : Args) (pw ph : Z) :
  pads_w args = Ok pw -> pads_h args = Ok ph ->
  exists doc,
    script args = Ok doc /\
    iter_tag "signal" doc = map (signal_element args) (pads args pw ph) /\
    (forall i j, 0 <= i < pw -> 0 <= j < ph ->
       (~ In (i, j) (map pad_index (pads args pw ph)) <->
        args_no_mtg args = false /\
        (i < args_corner args \/ i >= pw - args_corner args) /\
        (j < args_corner args \/ j >= ph - args_corner args))) /\
    (forall args' : Args,
       args_no_mtg args' = args_no_mtg args ->
       args_corner args' = args_corner args ->
       map pad_index (pads args' pw ph) = map pad_index (pads args pw ph)).
Proof.
  intros Hw Hh. exists (eagle args pw ph).
  split; [now apply script_resolved|].
  split; [apply iter_tag_signal|]. split.
  - intros i j Hi Hj. rewrite pads_indices. unfold surviving.
    rewrite filter_In, all_indices_In.
    unfold survives, excluded, exclude_corner_pads. cbn [fst snd].
    destruct (args_no_mtg args); cbn [negb andb].
    + split; [intros H; exfalso; apply H; tauto | intros [H _]; discriminate].
    + rewrite negb_true_iff, andb_false_iff, !orb_false_iff.
      rewrite !Z.ltb_ge, !Z.geb_leb, !Z.leb_gt.
      split; [intros H; split; [reflexivity|lia] | intros [_ H]; lia].
  - intros args' Hm Hc. rewrite !pads_indices. unfold surviving.
    apply filter_ext. intros ij. unfold survives, exclude_corner_pads.
    now rewrite Hm, Hc.
Qed.

Lemma pad_omitted_iff_in_corner_block_witness :
  (pads_w board_2x3_default = Ok 19 /\ pads_h board_2x3_default = Ok 29) /\
  exists doc,
    script board_2x3_default = Ok doc /\
    iter_tag "signal" doc =
      map (signal_element board_2x3_default)
          (pads board_2x3_default 19 29) /\
    (forall i j, 0 <= i < 19 -> 0 <= j < 29 ->
       (~ In (i, j) (map pad_index (pads board_2x3_default 19 29)) <->
        args_no_mtg board_2x3_default = false /\
        (i < args_corner board_2x3_default \/
         i >= 19 - args_corner board_2x3_default) /\
        (j < args_corner board_2x3_default \/
         j >= 29 - args_corner board_2x3_default))) /\
    (forall args' : Args,
       args_no_mtg args' = args_no_mtg board_2x3_default ->
       args_corner args' = args_corner board_2x3_default ->
       map pad_index (pads args' 19 29) =
       map pad_index (pads board_2x3_default 19 29)).
Proof.
  split.
  - split; reflexivity.
  - apply (pad_omitted_iff_in_corner_block board_2x3_default 19 29);
      reflexivity.
Defined.

(** The proximity test [too_close] plays no part: with [--corner 0] the pad
    at indices (1, 1) of a 2 x 2 inch board lies within the threshold of a
    mounting hole and is emitted, and with [--corner 5] the pad at (4, 4)
    lies outside the threshold and is left out. *)
Example too_close_not_consulted :
  let near := mkArgs 2 2 None None 0.1 0.042 0.075 false 0.125 0.1875 0 in
  let far := mkArgs 2 2 None None 0.1 0.042 0.075 false 0.125 0.1875 5 in
  (pads_w near = Ok 19 /\ pads_h near = Ok 19 /\
   too_close near (fst (position near 19 19 (1, 1)))
             (snd (position near 19 19 (1, 1))) 0.1875 = true /\
   In (1, 1) (map pad_index (pads near 19 19))) /\
  (pads_w far = Ok 19 /\ pads_h far = Ok 19 /\
   too_close far (fst (position far 19 19 (4, 4)))
             (snd (position far 19 19 (4, 4))) 0.1875 = false /\
   ~ In (4, 4) (map pad_index (pads far 19 19))).
Proof.
  cbv zeta. split; (split; [reflexivity|]); (split; [reflexivity|]);
    (split; [reflexivity|]); rewrite pads_indices; unfold surviving;
    rewrite filter_In.
  - split; [now apply all_indices_In | reflexivity].
  - intros [_ H]. discriminate H.
Qed.



(** The two scenarios of the specification. *)
Example scenario_2x2 :
  map pad_position (pads board_2x2 2 2) =
    [(1 # 2, 1 # 2); (1 # 2, 3 # 2); (3 # 2, 1 # 2); (3 # 2, 3 # 2)]%Q /\
  signal_names (eagle board_2x2 2 2) =
    [Some "S$1"; Some "S$2"; Some "S$3"; Some "S$4"] /\
  pads board_2x2_mtg 2 2 = [] /\
  List.length (iter_tag "hole" (eagle board_2x2_mtg 2 2)) = 4%nat.
Proof. repeat split; vm_compute; reflexivity. Qed.

(** ** Mounting holes *)

Lemma script_inv args doc :
  script args = Ok doc ->
  exists pw ph,
    pads_w args = Ok pw /\ pads_h args = Ok ph /\ doc = eagle args pw ph.
Proof.
  unfold script. intros H.
  destruct (pads_h args) as [h|e]; [|discriminate].
  destruct (pads_w args) as [w|e]; [|discriminate].
  cbn in H. inversion H. now exists w, h.
Qed.

Lemma mtg_hole_dia_enabled args :
  args_no_mtg args = false -> mtg_hole_dia args = Some (args_mtg args).
Proof. unfold mtg_hole_dia. now intros ->. Qed.

Lemma holes_positions args :
  holes args =
  [ (inset args, inset args);
    (inset args, (height args - inset args)%Q);
    ((width args - inset args)%Q, inset args);
    ((width args - inset args)%Q, (height args - inset args)%Q) ].
Proof. reflexivity. Qed.



(** ** Resolving the pad counts *)

Lemma py_div_nonzero x y : ~ (y == 0)%Q -> py_div x y = Ok (x / y)%Q.
Proof.
  intros H. unfold py_div.
  destruct (Qeq_bool y 0) eqn:E; [|reflexivity].
  now apply Qeq_bool_eq in E.
Qed.

Lemma py_div_zero x y : (y == 0)%Q -> py_div x y = Raise ZeroDivisionError.
Proof.
  intros H. unfold py_div. now rewrite (Qeq_eq_bool _ _ H).
Qed.



(** Without a count and with a zero pitch the division raises. *)
Lemma pad_counts_zero_pitch (args : Args) :
  (args_grid args == 0)%Q ->
  (args_l args = None -> script args = Raise ZeroDivisionError) /\
  (args_w args = None -> pads_w args = Raise ZeroDivisionError) /\
  (forall w h, args_w args = Some w -> args_l args = Some h ->
               script args = Ok (eagle args w h)).
Proof.
  intros Hg. unfold script, pads_w, pads_h. repeat split.
  - intros ->. unfold grid_pitch. now rewrite py_div_zero.
  - intros ->. unfold grid_pitch. now rewrite py_div_zero.
  - intros w h -> ->. reflexivity.
Qed.

(** ** Centering of the grid *)

Lemma Qsum_cons x l : Qsum (x :: l) = (x + Qsum l)%Q.
Proof. reflexivity. Qed.

Lemma Qsum_app l1 l2 : (Qsum (l1 ++ l2) == Qsum l1 + Qsum l2)%Q.
Proof.
  induction l1 as [|x l1 IH]; cbn [app].
  - change (Qsum []) with 0%Q. ring.
  - rewrite !Qsum_cons, IH. ring.
Qed.

Lemma Qsum_map_ext (A : Type) (f g : A -> Q) (l : list A) :
  (forall a, f a == g a)%Q -> (Qsum (map f l) == Qsum (map g l))%Q.
Proof.
  intros H. induction l as [|x l IH]; cbn [map]; [reflexivity|].
  now rewrite !Qsum_cons, IH, H.
Qed.

Lemma Qsum_const (A : Type) (c : Q) (l : list A) :
  (Qsum (map (fun _ => c) l) == inject_Z (Z.of_nat (List.length l)) * c)%Q.
Proof.
  induction l as [|x l IH]; cbn [map List.length].
  - change (Qsum []) with 0%Q. change (inject_Z (Z.of_nat 0)) with 0%Q. ring.
  - rewrite Qsum_cons, IH, Nat2Z.inj_succ, <- Z.add_1_r, inject_Z_plus.
    change (inject_Z 1) with 1%Q. ring.
Qed.

Lemma Qsum_flat_map (A : Type) (f : A -> list Q) (l : list A) :
  (Qsum (flat_map f l) == Qsum (map (fun a => Qsum (f a)) l))%Q.
Proof.
  induction l as [|x l IH]; cbn [flat_map map]; [reflexivity|].
  now rewrite Qsum_app, Qsum_cons, IH.
Qed.

Lemma Qsum_scale (A : Type) (c : Q) (f : A -> Q) (l : list A) :
  (Qsum (map (fun a => c * f a) l) == c * Qsum (map f l))%Q.
Proof.
  induction l as [|x l IH]; cbn [map].
  - change (Qsum []) with 0%Q. ring.
  - rewrite !Qsum_cons, IH. ring.
Qed.

(** Sum of the grid coordinates [a + k * g] for [k < n]. *)
Lemma Qsum_grid (a g : Q) (n : nat) :
  (Qsum (map (fun k => a + inject_Z k * g) (range (Z.of_nat n)))
   == inject_Z (Z.of_nat n)
      * (a + (inject_Z (Z.of_nat n) - 1) * g / 2))%Q.
Proof.
  unfold range. rewrite Nat2Z.id, map_map.
  induction n as [|n IH].
  - cbn [seq map]. change (Qsum []) with 0%Q.
    change (inject_Z (Z.of_nat 0)) with 0%Q. field.
  - rewrite seq_S, map_app, Qsum_app, IH. cbn [map plus].
    rewrite Qsum_cons. change (Qsum []) with 0%Q.
    rewrite Nat2Z.inj_succ, <- Z.add_1_r, inject_Z_plus.
    change (inject_Z 1) with 1%Q. field.
Qed.

Section Centering.
Variable args : Args.
Variables pw ph : Z.
Hypothesis pw_pos : 0 < pw.
Hypothesis ph_pos : 0 < ph.

Local Abbreviation positions :=
  (map (position args pw ph) (all_indices pw ph)).

Lemma positions_x :
  map fst positions =
  flat_map (fun i => map (fun _ =>
              (pad_x_orig args pw + inject_Z i * grid_pitch args)%Q)
              (range ph)) (range pw).
Proof.
  unfold all_indices. rewrite map_map.
  induction (range pw) as [|i l IH]; [reflexivity|].
  cbn [flat_map]. rewrite map_app, IH, map_map. reflexivity.
Qed.

Lemma positions_y :
  map snd positions =
  flat_map (fun _ => map (fun j =>
              (pad_y_orig args ph + inject_Z j * grid_pitch args)%Q)
              (range ph)) (range pw).
Proof.
  unfold all_indices. rewrite map_map.
  induction (range pw) as [|i l IH]; [reflexivity|].
  cbn [flat_map]. rewrite map_app, IH, map_map. reflexivity.
Qed.

Lemma positions_length :
  Z.of_nat (List.length (map fst positions)) = pw * ph /\
  Z.of_nat (List.length (map snd positions)) = pw * ph.
Proof.
  rewrite !length_map, all_indices_length. lia.
Qed.

Lemma mean_x : (mean (map fst positions) == width args / 2)%Q.
Proof.
  unfold mean. rewrite (proj1 positions_length), positions_x.
  rewrite Qsum_flat_map.
  rewrite (Qsum_map_ext _ _ _ _ (fun i => Qsum_const _ _ _)).
  rewrite range_length, Qsum_scale.
  rewrite <- (Z2Nat.id pw) at 1 by lia. rewrite Qsum_grid.
  rewrite !Z2Nat.id by lia. unfold pad_x_orig.
  rewrite inject_Z_mult.
  replace (pw - 1) with (pw + -1) by lia. rewrite inject_Z_plus.
  change (inject_Z (-1)) with (-1)%Q.
  assert (Hw : ~ (inject_Z pw == 0)%Q).
  { change 0%Q with (inject_Z 0). rewrite inject_Z_injective. lia. }
  assert (Hh : ~ (inject_Z ph == 0)%Q).
  { change 0%Q with (inject_Z 0). rewrite inject_Z_injective. lia. }
  field. split; assumption.
Qed.

Lemma mean_y : (mean (map snd positions) == height args / 2)%Q.
Proof.
  unfold mean. rewrite (proj2 positions_length), positions_y.
  rewrite Qsum_flat_map, Qsum_const, range_length.
  rewrite <- (Z2Nat.id ph) at 1 by lia. rewrite Qsum_grid.
  rewrite !Z2Nat.id by lia. unfold pad_y_orig.
  rewrite inject_Z_mult.
  replace (ph - 1) with (ph + -1) by lia. rewrite inject_Z_plus.
  change (inject_Z (-1)) with (-1)%Q.
  assert (Hw : ~ (inject_Z pw == 0)%Q).
  { change 0%Q with (inject_Z 0). rewrite inject_Z_injective. lia. }
  assert (Hh : ~ (inject_Z ph == 0)%Q).
  { change 0%Q with (inject_Z 0). rewrite inject_Z_injective. lia. }
  field. split; assumption.
Qed.
End Centering.

Lemma pads_positions args pw ph :
  map pad_position (pads args pw ph) =
  map (position args pw ph) (surviving args pw ph).
Proof. rewrite pads_spec. apply number_from_positions. Qed.



(** ** Millimetres *)

Lemma round3_nearest (x : Q) :
  (Qabs (inject_Z (round3 x) - 1000 * Qabs x) <= 1 # 2)%Q.
Proof.
  destruct x as [n d]. unfold round3. cbn [Qnum Qden].
  set (a := Z.abs n * 1000).
  assert (Hd : 0 < Z.pos d) by lia.
  pose proof (Z.div_mod a (Z.pos d) ltac:(lia)) as Hdiv.
  pose proof (Z.mod_pos_bound a (Z.pos d) Hd) as Hmod.
  set (q := a / Z.pos d) in *. set (r := a mod Z.pos d) in *.
  assert (Habs : (1000 * Qabs (n # d) == a # d)%Q).
  { unfold Qabs, a, Qeq, Qmult. cbn [Qnum Qden]. lia. }
  assert (Hle : forall m : Z,
             - Z.pos d <= 2 * (m * Z.pos d - a) <= Z.pos d ->
             (Qabs (inject_Z m - 1000 * Qabs (n # d)) <= 1 # 2)%Q).
  { intros m Hm. rewrite Habs. apply Qabs_Qle_condition.
    unfold Qle, Qminus, Qplus, Qmult, Qopp, inject_Z. cbn. split; nia. }
  destruct ((Z.pos d <? 2 * r) || ((Z.pos d =? 2 * r) && Z.odd q)) eqn:E;
    apply Hle.
  - apply orb_true_iff in E. destruct E as [E|E].
    + apply Z.ltb_lt in E. nia.
    + apply andb_true_iff in E. destruct E as [E _].
      apply Z.eqb_eq in E. nia.
  - apply orb_false_iff in E. destruct E as [E _].
    apply Z.ltb_ge in E. nia.
Qed.

Lemma lengths_signal_elements args (l : list Pad) :
  flat_map lengths_of (flat_map iter (map (signal_element args) l)) =
  map (fun v => fmt3 (in_to_mm v))
      (flat_map (fun p => [pad_x p; pad_y p; pad_drill args; pad_dia args])
                l).
Proof.
  induction l as [|p l IH]; [reflexivity|].
  cbn [map flat_map]. rewrite flat_map_app, map_app, IH. reflexivity.
Qed.

Lemma lengths_eagle args pw ph :
  lengths (eagle args pw ph) =
  map (fun v => fmt3 (in_to_mm v)) (inch_values args pw ph).
Proof.
  unfold lengths, inch_values.
  rewrite iter_eagle, !flat_map_app, !map_app, lengths_signal_elements.
  change (flat_map lengths_of
            [eagle args pw ph; drawing args pw ph; settings])
    with (@nil string).
  change (flat_map lengths_of (children_of settings)) with (@nil string).
  change (flat_map lengths_of [grid; layers]) with (@nil string).
  replace (flat_map lengths_of (children_of layers)) with (@nil string)
    by reflexivity.
  change (flat_map lengths_of [board args pw ph; plain args])
    with (@nil string).
  change (flat_map lengths_of [signals args pw ph]) with (@nil string).
  cbn [app]. rewrite app_assoc. f_equal.
  unfold plain. destruct (args_no_mtg args); reflexivity.
Qed.



Example millimetres_2x2 :
  lengths (eagle board_2x2 2 2) =
  [ "0.000"; "0.000"; "0.000"; "50.800";
    "0.000"; "50.800"; "50.800"; "50.800";
    "50.800"; "50.800"; "50.800"; "0.000";
    "50.800"; "0.000"; "0.000"; "0.000";
    "12.700"; "12.700"; "1.067"; "1.905";
    "12.700"; "38.100"; "1.067"; "1.905";
    "38.100"; "12.700"; "1.067"; "1.905";
    "38.100"; "38.100"; "1.067"; "1.905" ].
Proof. vm_compute. reflexivity. Qed.

(** ** [float] rejects every string with a slash *)

Module PyFloatFacts.
Import PyFloat.

Local Open Scope char_scope.

Lemma lstrip_slash s : In "/" s -> In "/" (lstrip s).
Proof.
  induction s as [|c s IH]; [easy|]. cbn [lstrip].
  destruct (is_space c) eqn:E; [|easy].
  intros [->|H]; [discriminate E | now apply IH].
Qed.

Lemma sign_slash s : In "/" s -> In "/" (snd (sign s)).
Proof.
  destruct s as [|c s]; [easy|]. unfold sign.
  destruct (Ascii.eqb c "+") eqn:E1; [apply Ascii.eqb_eq in E1; subst|].
  - intros [H|H]; [discriminate H | exact H].
  - destruct (Ascii.eqb c "-") eqn:E2; [apply Ascii.eqb_eq in E2; subst|].
    + intros [H|H]; [discriminate H | exact H].
    + easy.
Qed.

Lemma digitpart_more_slash n : forall s,
  (List.length s <= n)%nat ->
  In "/" s -> In "/" (snd (digitpart_more s)).
Proof.
  induction n as [|n IH]; intros [|c s] Hn; try easy;
    cbn [List.length] in Hn; try lia.
  cbn [digitpart_more].
  destruct (is_digit c) eqn:Ed.
  - specialize (IH s ltac:(lia)).
    destruct (digitpart_more s) as [ds r]. cbn [snd] in *.
    intros [->|H]; [discriminate Ed | now apply IH].
  - destruct (Ascii.eqb c "_") eqn:Eu; [|easy].
    apply Ascii.eqb_eq in Eu. subst c.
    destruct s as [|d s']; [easy|].
    destruct (is_digit d) eqn:Ed'; [|easy].
    cbn [List.length] in Hn. specialize (IH s' ltac:(lia)).
    destruct (digitpart_more s') as [ds r]. cbn [snd] in *.
    intros [H|[->|H]]; [discriminate H | discriminate Ed' | now apply IH].
Qed.

Lemma digitpart_slash s ds r :
  digitpart s = Some (ds, r) -> In "/" s -> In "/" r.
Proof.
  destruct s as [|c s]; [easy|]. cbn [digitpart].
  destruct (is_digit c) eqn:Ed; [|easy].
  pose proof (digitpart_more_slash (List.length s) s (le_n _)) as Hm.
  destruct (digitpart_more s) as [ds' r']. cbn [snd] in Hm.
  intros H. inversion H; subst.
  intros [->|Hin]; [discriminate Ed | now apply Hm].
Qed.

Lemma number_slash s ip fp r :
  number s = Some (ip, fp, r) -> In "/" s -> In "/" r.
Proof.
  unfold number. destruct (digitpart s) as [[ip' r']|] eqn:E.
  - intros H Hs. pose proof (digitpart_slash _ _ _ E Hs) as Hr'.
    destruct r' as [|c r'']; [easy|].
    destruct (Ascii.eqb c ".") eqn:Ec.
    + apply Ascii.eqb_eq in Ec. subst c.
      destruct Hr' as [Hr'|Hr']; [discriminate Hr'|].
      destruct (digitpart r'') as [[fp' r3]|] eqn:E'.
      * inversion H; subst. eapply digitpart_slash; eassumption.
      * inversion H; subst. exact Hr'.
    + inversion H; subst. exact Hr'.
  - destruct s as [|c s']; [easy|].
    destruct (Ascii.eqb c ".") eqn:Ec; [|easy].
    apply Ascii.eqb_eq in Ec. subst c.
    destruct (digitpart s') as [[fp' r3]|] eqn:E'; [|easy].
    intros H [Hs|Hs]; [discriminate Hs|].
    inversion H; subst. eapply digitpart_slash; eassumption.
Qed.

Lemma exponent_slash s e r :
  exponent s = Some (e, r) -> In "/" s -> In "/" r.
Proof.
  destruct s as [|c s]; [easy|]. cbn [exponent].
  destruct (Ascii.eqb c "e" || Ascii.eqb c "E") eqn:Ec; [|easy].
  pose proof (sign_slash s) as Hsg.
  destruct (sign s) as [sg t']. cbn [snd] in Hsg.
  destruct (digitpart t') as [[ds r']|] eqn:E; [|easy].
  intros H [->|Hs]; [discriminate Ec|].
  inversion H; subst. eapply digitpart_slash; [eassumption|now apply Hsg].
Qed.

Lemma parse_slash s : In "/" s -> parse s = None.
Proof.
  intros Hs. unfold parse.
  pose proof (sign_slash _ (lstrip_slash _ Hs)) as H1.
  destruct (sign (lstrip s)) as [sg s1]. cbn [snd] in H1.
  destruct (number s1) as [[[ip fp] r]|] eqn:En; [|reflexivity].
  pose proof (number_slash _ _ _ _ En H1) as H2.
  assert (H3 : In "/" (snd match exponent r with
                           | Some (e, r') => (e, r')
                           | None => (0, r)
                           end)).
  { destruct (exponent r) as [[e r']|] eqn:Ee; [|exact H2].
    eapply exponent_slash; eassumption. }
  destruct (match exponent r with
            | Some (e, r') => (e, r')
            | None => (0, r)
            end) as [e r']. cbn [snd] in H3.
  destruct (forallb is_space r') eqn:Ef; [|reflexivity].
  rewrite forallb_forall in Ef. specialize (Ef _ H3). discriminate Ef.
Qed.

End PyFloatFacts.

Lemma py_float_slash (s : string) :
  In "/"%char (list_ascii_of_string s) -> py_float s = None.
Proof. apply PyFloatFacts.parse_slash. Qed.

(** ** The fraction pattern *)

Module ReFacts.
Import Re.

Lemma is_digit_starts c t : starts_with_digit (c :: t) = is_digit c.
Proof. reflexivity. Qed.

(** The greedy digit run takes all of a digit string when the continuation
    accepts what follows it. *)
Lemma digits_plus_longest {A : Type} (ds r : list ascii)
      (k : list ascii -> option A) (a : A) :
  digit_string ds -> starts_with_digit r = false ->
  k r = Some a -> digits_plus (ds ++ r) k = Some a.
Proof.
  intros [Hne Hds] Hr Hk.
  induction ds as [|c ds IH]; [contradiction|].
  cbn [forallb] in Hds. apply andb_true_iff in Hds. destruct Hds as [Hc Hds].
  cbn [app digits_plus]. rewrite Hc.
  destruct ds as [|c' ds'].
  - cbn [app]. destruct r as [|c' r']; cbn [digits_plus].
    + exact Hk.
    + cbn in Hr. rewrite Hr. exact Hk.
  - rewrite IH; [reflexivity | discriminate | exact Hds].
Qed.

(** It fails when the continuation refuses what follows the digits and
    every text that starts with a digit. *)
Lemma digits_plus_none {A : Type} (ds r : list ascii)
      (k : list ascii -> option A) :
  forallb is_digit ds = true -> starts_with_digit r = false ->
  (forall t, t = r \/ starts_with_digit t = true -> k t = None) ->
  digits_plus (ds ++ r) k = None.
Proof.
  intros Hds Hr Hk. induction ds as [|c ds IH].
  - cbn [app]. destruct r as [|c r']; [reflexivity|].
    cbn [digits_plus]. cbn in Hr. now rewrite Hr.
  - cbn [forallb] in Hds. apply andb_true_iff in Hds.
    destruct Hds as [Hc Hds]. cbn [app digits_plus]. rewrite Hc.
    rewrite (IH Hds). apply Hk.
    destruct ds as [|c' ds']; [now left|].
    right. cbn [app forallb] in *. cbn.
    now apply andb_true_iff in Hds.
Qed.

Lemma consumed_app (ds r : list ascii) :
  consumed (ds ++ r) r = string_of_list_ascii ds.
Proof.
  unfold consumed. rewrite length_app.
  replace (List.length ds + List.length r - List.length r)%nat
    with (List.length ds + 0)%nat by lia.
  now rewrite firstn_app_2, app_nil_r.
Qed.

Lemma consumed_nil (s : list ascii) : consumed s s = "".
Proof. unfold consumed. now rewrite Nat.sub_diag. Qed.

(** The tail of the pattern, [(\d+)/(\d+)], on [num/den] and a rest. *)
Lemma run_num_den (num den rest : list ascii) (g : groups) :
  digit_string num -> digit_string den -> starts_with_digit rest = false ->
  run (Cat (Group 4 Digits) (Cat (Chr "/") (Group 5 Digits)))
      (num ++ "/"%char :: den ++ rest) g (fun _ g' => Some g') =
  Some ((5%nat, string_of_list_ascii den)
        :: (4%nat, string_of_list_ascii num) :: g).
Proof.
  intros Hn Hd Hr. cbn [run].
  apply digits_plus_longest; [exact Hn | reflexivity|].
  rewrite consumed_app. cbn [Ascii.eqb Bool.eqb].
  apply digits_plus_longest; [exact Hd | exact Hr|].
  now rewrite consumed_app.
Qed.

Lemma rematch_fraction (base : option (list ascii))
      (num den rest : list ascii) :
  fraction_ok base num den -> starts_with_digit rest = false ->
  rematch re_fract (fraction_then base num den rest) =
  Some (fraction_groups base num den).
Proof.
  intros [Hb [Hn Hd]] Hr. unfold rematch, fraction_then.
  rewrite list_ascii_of_string_of_list_ascii.
  unfold re_fract, fraction_text, fraction_groups.
  destruct base as [b|].
  - rewrite <- !app_assoc. cbn [app].
    set (tl := (num ++ "/"%char :: den ++ rest)%list).
    cbn [run].
    rewrite (digits_plus_longest b ("+"%char :: tl) _
               ((5%nat, string_of_list_ascii den)
                :: (4%nat, string_of_list_ascii num)
                :: [ (1%nat, string_of_list_ascii (b ++ ["+"%char]));
                     (2%nat, string_of_list_ascii (b ++ ["+"%char]));
                     (3%nat, string_of_list_ascii b) ]));
      [reflexivity | exact Hb | reflexivity|].
    cbn [Ascii.eqb Bool.eqb].
    change (b ++ "+"%char :: tl)%list with (b ++ ["+"%char] ++ tl)%list.
    rewrite app_assoc, !consumed_app, <- app_assoc. cbn [app].
    rewrite consumed_app.
    pose proof (run_num_den num den rest
                  [ (1%nat, string_of_list_ascii (b ++ ["+"%char]));
                    (2%nat, string_of_list_ascii (b ++ ["+"%char]));
                    (3%nat, string_of_list_ascii b) ] Hn Hd Hr) as H.
    cbn [run] in H. exact H.
  - cbn [app]. rewrite <- app_assoc. cbn [app].
    set (s := (num ++ "/"%char :: den ++ rest)%list).
    cbn [run].
    rewrite (digits_plus_none num ("/"%char :: den ++ rest));
      [| apply Hn | reflexivity |].
    + rewrite consumed_nil.
      pose proof (run_num_den num den rest [(1%nat, "")] Hn Hd Hr) as H.
      cbn [run] in H. exact H.
    + intros t [->|Ht]; [reflexivity|].
      destruct t as [|c t']; [discriminate Ht|]. cbn in Ht.
      destruct (Ascii.eqb "+" c) eqn:E; [|reflexivity].
      apply Ascii.eqb_eq in E. subst c. discriminate Ht.
Qed.

End ReFacts.

(** ** Parsing a dimension *)

Lemma py_int_digits (ds : list ascii) :
  digit_string ds ->
  py_int (Some (string_of_list_ascii ds)) = Ok (digits_val 0 ds).
Proof.
  intros [Hne Hds]. unfold py_int.
  rewrite list_ascii_of_string_of_list_ascii, Hds.
  destruct ds; [contradiction | reflexivity].
Qed.

Lemma truthy_digits (ds : list ascii) :
  digit_string ds -> truthy (Some (string_of_list_ascii ds)) = true.
Proof.
  intros [Hne _]. destruct ds; [contradiction | reflexivity].
Qed.

Lemma float_of_int_zero (d : Z) :
  Qeq_bool (1 * inject_Z d) 0 = (d =? 0).
Proof.
  unfold Qeq_bool, Qmult, inject_Z. cbn [Qnum Qden].
  destruct d; reflexivity.
Qed.

Lemma fraction_text_slash base num den rest :
  In "/"%char
     (list_ascii_of_string (fraction_then base num den rest)).
Proof.
  unfold fraction_then, fraction_text.
  rewrite list_ascii_of_string_of_list_ascii, !in_app_iff.
  left. right. right. now left.
Qed.

(** What [fract_arg] and [inch_arg] do on a string that begins with a
    fraction. *)
Lemma inch_arg_fraction base num den rest :
  fraction_ok base num den -> starts_with_digit rest = false ->
  py_float (fraction_then base num den rest) = None /\
  fract_arg (fraction_then base num den rest) =
    (if digits_val 0 den =? 0 then Raise ZeroDivisionError
     else Ok (fraction_value base num den)) /\
  inch_arg (fraction_then base num den rest) =
    fract_arg (fraction_then base num den rest).
Proof.
  intros Hok Hr.
  assert (Hf : py_float (fraction_then base num den rest) = None)
    by apply py_float_slash, fraction_text_slash.
  split; [exact Hf|]. split; [|unfold inch_arg; now rewrite Hf].
  unfold fract_arg. rewrite (ReFacts.rematch_fraction _ _ _ _ Hok Hr).
  destruct Hok as [Hb [Hn Hd]].
  unfold fraction_groups, fraction_value, Re.group.
  destruct base as [b|]; cbn [Re.lookup Nat.eqb].
  - rewrite (truthy_digits _ Hb), !py_int_digits by assumption.
    cbn [bind]. unfold py_div. rewrite float_of_int_zero.
    destruct (digits_val 0 den =? 0); reflexivity.
  - cbn [truthy]. rewrite !py_int_digits by assumption.
    cbn [bind]. unfold py_div. rewrite float_of_int_zero.
    destruct (digits_val 0 den =? 0); reflexivity.
Qed.

(** A string that [float] rejects and that does not begin with a fraction
    is a usage error: the process exits with status 2. *)
Lemma unmatched_is_usage_error (s : string) :
  py_float s = None -> Re.rematch re_fract s = None ->
  inch_arg s = Raise (ArgumentTypeError "bad argument value") /\
  get_value inch_arg s = UsageError /\
  exit_status (get_value inch_arg s) = Some 2.
Proof.
  intros Hf Hm.
  assert (H : inch_arg s = Raise (ArgumentTypeError "bad argument value")).
  { unfold inch_arg, fract_arg. now rewrite Hf, Hm. }
  unfold get_value. rewrite H. repeat split.
Qed.

(** C8.  The string [1/2abc] is malformed, yet it is converted to 1/2 and
    no usage error is raised. *)
Theorem malformed_fraction_accepted :
  malformed "1/2abc" = true /\
  inch_arg "1/2abc" = Ok (fraction_value None ["1"%char] ["2"%char]) /\
  get_value inch_arg "1/2abc" =
    Converted (fraction_value None ["1"%char] ["2"%char]) /\
  exit_status (get_value inch_arg "1/2abc") = None.
Proof. repeat split. Qed.






(** ** Counting the pads *)

Lemma excluded_in_corner no_mtg c pw ph i j :
  excluded no_mtg c pw ph i j =
  negb no_mtg && in_corner c pw i && in_corner c ph j.
Proof. reflexivity. Qed.

(** Indices in [0, n) that lie below [c] or at or above [p]. *)
Lemma count_ends (c p : Z) (n : nat) :
  List.length (filter (fun i => (i <? c) || (i >=? p))
                      (map Z.of_nat (seq 0 n))) =
  (Z.to_nat (Z.min (Z.of_nat n) c)
   + Z.to_nat (Z.of_nat n - Z.max p (Z.max c 0)))%nat.
Proof.
  induction n as [|n IH]; [cbn; lia|].
  rewrite seq_S, map_app, filter_app, length_app, IH. cbn [plus map filter].
  destruct (Z.ltb_spec (Z.of_nat n) c), (Z.geb_spec (Z.of_nat n) p);
    cbn [orb List.length]; lia.
Qed.

Lemma count_in_corner (c n : Z) :
  0 <= n -> 0 <= c ->
  Z.of_nat (List.length (filter (in_corner c n) (range n))) =
  Z.min n (2 * c).
Proof.
  intros Hn Hc. unfold range, in_corner. rewrite count_ends. lia.
Qed.

Lemma count_in_corner_none (c n : Z) :
  c <= 0 -> filter (in_corner c n) (range n) = [].
Proof.
  intros Hc.
  assert (H : forallb (fun i => negb (in_corner c n i)) (range n) = true).
  { apply forallb_forall. intros i Hi. apply range_In in Hi.
    unfold in_corner.
    destruct (Z.ltb_spec i c), (Z.geb_spec i (n - c)); cbn; lia. }
  induction (range n) as [|i l IH]; [reflexivity|].
  cbn [forallb] in H. apply andb_true_iff in H. destruct H as [Hi Hl].
  cbn [filter]. apply negb_true_iff in Hi. rewrite Hi. now apply IH.
Qed.

Lemma filter_row_length (f g : Z -> bool) (i : Z) (rows : list Z) :
  List.length (filter (fun ij => f (fst ij) && g (snd ij))
                      (map (pair i) rows)) =
  if f i then List.length (filter g rows) else 0%nat.
Proof.
  induction rows as [|j rows IH]; [now destruct (f i)|].
  cbn [map filter fst snd].
  destruct (f i), (g j); cbn [andb List.length]; rewrite IH; reflexivity.
Qed.

Lemma filter_product_length (f g : Z -> bool) (cols rows : list Z) :
  List.length
    (filter (fun ij => f (fst ij) && g (snd ij))
            (flat_map (fun i => map (pair i) rows) cols)) =
  (List.length (filter f cols) * List.length (filter g rows))%nat.
Proof.
  induction cols as [|i cols IH]; [reflexivity|].
  cbn [flat_map filter].
  rewrite filter_app, length_app, IH, filter_row_length.
  destruct (f i); cbn [List.length]; lia.
Qed.

Lemma pads_length args pw ph :
  List.length (pads args pw ph) = List.length (surviving args pw ph).
Proof. rewrite pads_spec. apply number_from_length. Qed.

Lemma surviving_count args pw ph :
  args_no_mtg args = false ->
  (List.length (surviving args pw ph)
   + List.length (filter (in_corner (args_corner args) pw) (range pw))
     * List.length (filter (in_corner (args_corner args) ph) (range ph)))%nat
  = (Z.to_nat pw * Z.to_nat ph)%nat.
Proof.
  intros Hm. rewrite <- all_indices_length, <- filter_product_length.
  rewrite <- (filter_length
                (fun ij => in_corner (args_corner args) pw (fst ij)
                           && in_corner (args_corner args) ph (snd ij))
                (all_indices pw ph)).
  rewrite Nat.add_comm. f_equal. unfold surviving. f_equal.
  apply filter_ext. intros ij. unfold survives.
  rewrite excluded_in_corner, Hm. reflexivity.
Qed.

(** X1.  With mounting holes enabled and a corner depth [c >= 0], the
    script writes [pw * ph - min(pw, 2c) * min(ph, 2c)] pads: the four
    corner blocks, which merge along an axis once [2c] reaches its count. *)
Theorem pad_count_with_mounting (args : Args) (pw ph : Z) :
  pads_w args = Ok pw -> pads_h args = Ok ph ->
  args_no_mtg args = false ->
  0 <= pw -> 0 <= ph -> 0 <= args_corner args ->
  exists doc,
    script args = Ok doc /\
    Z.of_nat (List.length (iter_tag "via" doc)) =
      pw * ph - Z.min pw (2 * args_corner args)
                * Z.min ph (2 * args_corner args) /\
    Z.of_nat (List.length (iter_tag "signal" doc)) =
      pw * ph - Z.min pw (2 * args_corner args)
                * Z.min ph (2 * args_corner args).
Proof.
  intros Hw Hh Hm Hpw Hph Hc. exists (eagle args pw ph).
  split; [now apply script_resolved|].
  rewrite iter_tag_via, iter_tag_signal, !length_map, pads_length.
  pose proof (surviving_count args pw ph Hm) as Hs.
  pose proof (count_in_corner (args_corner args) pw Hpw Hc) as Hcw.
  pose proof (count_in_corner (args_corner args) ph Hph Hc) as Hch.
  split; nia.
Qed.

Lemma pad_count_with_mounting_witness :
  (pads_w board_2x3_default = Ok 19 /\ pads_h board_2x3_default = Ok 29 /\
   args_no_mtg board_2x3_default = false /\
   0 <= 19 /\ 0 <= 29 /\ 0 <= args_corner board_2x3_default) /\
  exists doc,
    script board_2x3_default = Ok doc /\
    Z.of_nat (List.length (iter_tag "via" doc)) =
      19 * 29 - Z.min 19 (2 * args_corner board_2x3_default)
                * Z.min 29 (2 * args_corner board_2x3_default) /\
    Z.of_nat (List.length (iter_tag "signal" doc)) =
      19 * 29 - Z.min 19 (2 * args_corner board_2x3_default)
                * Z.min 29 (2 * args_corner board_2x3_default).
Proof.
  split.
  - repeat split; try reflexivity; discriminate.
  - apply (pad_count_with_mounting board_2x3_default 19 29);
      try reflexivity; discriminate.
Defined.

(** X2.  A corner depth of zero or less excludes nothing: with mounting
    holes enabled the pads are those of the whole grid, as with
    [--no-mtg]. *)
Theorem no_exclusion_without_corner_depth (args : Args) (pw ph : Z) :
  pads_w args = Ok pw -> pads_h args = Ok ph ->
  args_corner args <= 0 ->
  exists doc,
    script args = Ok doc /\
    iter_tag "via" doc = map (via_element args) (pads args pw ph) /\
    map pad_index (pads args pw ph) = all_indices pw ph /\
    List.length (iter_tag "via" doc) = (Z.to_nat pw * Z.to_nat ph)%nat.
Proof.
  intros Hw Hh Hc. exists (eagle args pw ph).
  assert (Hs : surviving args pw ph = all_indices pw ph).
  { unfold surviving. apply forallb_filter_id, forallb_forall.
    intros [i j] Hij. apply all_indices_In in Hij.
    unfold survives, exclude_corner_pads. rewrite excluded_in_corner.
    cbn [fst snd]. unfold in_corner.
    destruct (Z.ltb_spec i (args_corner args)),
      (Z.geb_spec i (pw - args_corner args)); cbn; lia. }
  split; [now apply script_resolved|].
  split; [apply iter_tag_via|].
  split; [now rewrite pads_indices|].
  now rewrite iter_tag_via, length_map, pads_length, Hs, all_indices_length.
Qed.

Lemma no_exclusion_without_corner_depth_witness :
  (pads_w board_2x2_corner0 = Ok 2 /\ pads_h board_2x2_corner0 = Ok 2 /\
   args_corner board_2x2_corner0 <= 0) /\
  exists doc,
    script board_2x2_corner0 = Ok doc /\
    iter_tag "via" doc =
      map (via_element board_2x2_corner0) (pads board_2x2_corner0 2 2) /\
    map pad_index (pads board_2x2_corner0 2 2) = all_indices 2 2 /\
    List.length (iter_tag "via" doc) = (Z.to_nat 2 * Z.to_nat 2)%nat.
Proof.
  split.
  - repeat split; try reflexivity; discriminate.
  - apply (no_exclusion_without_corner_depth board_2x2_corner0 2 2);
      try reflexivity; discriminate.
Defined.

(** ** Degenerate grids *)

Lemma range_nonpositive n : n <= 0 -> range n = [].
Proof.
  intros H. unfold range. replace (Z.to_nat n) with 0%nat by lia. reflexivity.
Qed.

Lemma all_indices_empty pw ph : pw <= 0 \/ ph <= 0 -> all_indices pw ph = [].
Proof.
  unfold all_indices. intros [H|H]; rewrite (range_nonpositive _ H).
  - reflexivity.
  - induction (range pw) as [|i l IH]; [reflexivity | exact IH].
Qed.

Lemma pads_empty args pw ph : pw <= 0 \/ ph <= 0 -> pads args pw ph = [].
Proof.
  intros H. rewrite pads_spec. unfold surviving.
  now rewrite (all_indices_empty _ _ H).
Qed.

(** X3.  A count of zero or less along either axis, given or computed, is
    not an error: the script writes a document without pads and signals,
    with the outline and the mounting holes as usual. *)
Theorem no_pads_for_nonpositive_count (args : Args) (pw ph : Z) :
  pads_w args = Ok pw -> pads_h args = Ok ph ->
  pw <= 0 \/ ph <= 0 ->
  exists doc,
    script args = Ok doc /\
    iter_tag "via" doc = [] /\
    iter_tag "signal" doc = [] /\
    iter_tag "wire" doc = outline args /\
    iter_tag "hole" doc =
      (if args_no_mtg args then []
       else map (hole_element args) (holes args)).
Proof.
  intros Hw Hh Hn. exists (eagle args pw ph).
  split; [now apply script_resolved|].
  rewrite iter_tag_via, iter_tag_signal, iter_tag_wire, iter_tag_hole.
  rewrite (pads_empty _ _ _ Hn). repeat split.
Qed.

Lemma no_pads_for_nonpositive_count_witness :
  (pads_w board_narrow = Ok 0 /\ pads_h board_narrow = Ok 29 /\
   (0 <= 0 \/ 29 <= 0)) /\
  exists doc,
    script board_narrow = Ok doc /\
    iter_tag "via" doc = [] /\
    iter_tag "signal" doc = [] /\
    iter_tag "wire" doc = outline board_narrow /\
    iter_tag "hole" doc =
      (if args_no_mtg board_narrow then []
       else map (hole_element board_narrow) (holes board_narrow)).
Proof.
  split.
  - repeat split; try reflexivity. left. discriminate.
  - apply (no_pads_for_nonpositive_count board_narrow 0 29);
      try reflexivity. left. discriminate.
Defined.

Lemma Qfloor_pos_iff (q : Q) : 1 <= Qfloor q <-> (1 <= q)%Q.
Proof.
  split; intros H.
  - apply Qle_trans with (inject_Z (Qfloor q)); [|apply Qfloor_le].
    change 1%Q with (inject_Z 1). now rewrite <- Zle_Qle.
  - change 1 with (Qfloor (inject_Z 1)). now apply Qfloor_resp_le.
Qed.

Lemma pads_w_computed args :
  args_w args = None -> ~ (args_grid args == 0)%Q ->
  pads_w args = Ok (Qfloor ((args_width args - border) / args_grid args)).
Proof.
  intros Hn Hg. unfold pads_w, grid_pitch, width.
  now rewrite Hn, py_div_nonzero.
Qed.

Lemma pads_h_computed args :
  args_l args = None -> ~ (args_grid args == 0)%Q ->
  pads_h args = Ok (Qfloor ((args_length args - border) / args_grid args)).
Proof.
  intros Hn Hg. unfold pads_h, grid_pitch, height.
  now rewrite Hn, py_div_nonzero.
Qed.



(** ** Where the pads are *)

Lemma number_from_In args pw ph (l : list (Z * Z)) : forall n p,
  In p (number_from args pw ph n l) ->
  In (pad_index p) l /\
  pad_position p = position args pw ph (pad_index p).
Proof.
  induction l as [|ij l IH]; intros n p; cbn [number_from]; [easy|].
  intros [<-|H].
  - split; [left; now destruct ij | reflexivity].
  - destruct (IH _ _ H) as [H1 H2]. split; [now right | exact H2].
Qed.

(** Every emitted pad sits at the grid position of its indices, which are
    indices of the grid that the exclusion test lets through. *)
Lemma pads_In args pw ph p :
  In p (pads args pw ph) ->
  0 <= pad_i p < pw /\ 0 <= pad_j p < ph /\
  survives args pw ph (pad_index p) = true /\
  pad_position p = position args pw ph (pad_index p).
Proof.
  rewrite pads_spec. intros H. apply number_from_In in H.
  destruct H as [Hin Hpos]. unfold surviving in Hin.
  apply filter_In in Hin. destruct Hin as [Hall Hs].
  destruct p as [i j x y s]. cbn in *.
  apply all_indices_In in Hall. tauto.
Qed.

Lemma inject_Z_scale (a b : Z) (g : Q) :
  (0 < g)%Q -> a <= b -> (inject_Z a * g <= inject_Z b * g)%Q.
Proof.
  intros Hg Hab. apply Qmult_le_compat_r; [|lra]. now rewrite <- Zle_Qle.
Qed.

(** A computed count [n] fits: [n] pitches are at most the dimension less
    the border. *)
Lemma computed_count_fits (d g : Q) :
  (0 < g)%Q -> (inject_Z (Qfloor ((d - border) / g)) * g <= d - border)%Q.
Proof.
  intros Hg.
  assert (Hnz : ~ (g == 0)%Q) by (intros E; rewrite E in Hg; lra).
  pose proof (Qfloor_le ((d - border) / g)) as H.
  set (n := Qfloor ((d - border) / g)) in *.
  apply (Qmult_le_compat_r _ _ g) in H; [|lra].
  unfold Qdiv in H. rewrite <- Qmult_assoc in H.
  rewrite (Qmult_comm (/ _)), Qmult_inv_r in H by exact Hnz. lra.
Qed.

(** Along one axis: a grid of [n] points with pitch [g], centred in a
    dimension [d] that has room for [n] pitches and a border [b], keeps
    every point at least [(b + g) / 2] inside. *)
Lemma centred_point_inside (d g b : Q) (n i : Z) :
  (0 < g)%Q -> 0 <= i < n -> (inject_Z n * g <= d - b)%Q ->
  let x := ((d - inject_Z (n - 1) * g) / 2 + inject_Z i * g)%Q in
  ((b + g) / 2 <= x /\ x <= d - (b + g) / 2)%Q.
Proof.
  intros Hg Hi Hn x. subst x.
  pose proof (inject_Z_scale 0 i g Hg ltac:(lia)) as H0.
  pose proof (inject_Z_scale i (n - 1) g Hg ltac:(lia)) as H1.
  assert (E : (inject_Z (n - 1) * g == inject_Z n * g - g)%Q).
  { replace (n - 1) with (n + -1) by lia. rewrite inject_Z_plus.
    change (inject_Z (-1)) with (-1)%Q. ring. }
  rewrite E in *. change (inject_Z 0) with 0%Q in H0.
  set (P := (inject_Z n * g)%Q) in *. set (I := (inject_Z i * g)%Q) in *.
  split.
  - apply Qle_shift_div_r; [reflexivity|].
    setoid_replace (((d - (P - g)) / 2 + I) * 2)%Q
      with (d - (P - g) + 2 * I)%Q by field. lra.
  - apply (Qmult_le_r _ _ 2); [reflexivity|].
    setoid_replace (((d - (P - g)) / 2 + I) * 2)%Q
      with (d - (P - g) + 2 * I)%Q by field.
    setoid_replace ((d - (b + g) / 2) * 2)%Q
      with (2 * d - (b + g))%Q by field. lra.
Qed.



Lemma in_corner_mirror (c n i : Z) :
  in_corner c n (n - 1 - i) = in_corner c n i.
Proof.
  unfold in_corner.
  destruct (Z.ltb_spec (n - 1 - i) c), (Z.geb_spec (n - 1 - i) (n - c)),
    (Z.ltb_spec i c), (Z.geb_spec i (n - c)); cbn; lia.
Qed.

Lemma pads_In_iff args pw ph (ij : Z * Z) :
  In ij (map pad_index (pads args pw ph)) <->
  (0 <= fst ij < pw /\ 0 <= snd ij < ph) /\ survives args pw ph ij = true.
Proof.
  rewrite pads_indices. unfold surviving. rewrite filter_In.
  destruct ij as [i j]. now rewrite all_indices_In.
Qed.




(** ** Signal numbers on the full grid *)

Lemma number_from_row args pw ph (i : Z) (m : nat) : forall (b : nat) n,
  n = i * ph + Z.of_nat b ->
  Forall (fun p => pad_signal p = pad_i p * ph + pad_j p + 1)
         (number_from args pw ph n
            (map (pair i) (map Z.of_nat (seq b m)))).
Proof.
  induction m as [|m IH]; intros b n Hn; cbn [seq map number_from];
    constructor.
  - cbn [pad_signal pad_i pad_j fst snd]. lia.
  - apply IH. lia.
Qed.

Lemma number_from_columns args pw ph (m : nat) : forall (a : nat) n,
  0 <= ph -> n = Z.of_nat a * ph ->
  Forall (fun p => pad_signal p = pad_i p * ph + pad_j p + 1)
         (number_from args pw ph n
            (flat_map (fun i => map (pair i) (range ph))
                      (map Z.of_nat (seq a m)))).
Proof.
  induction m as [|m IH]; intros a n Hph Hn; cbn [seq map flat_map];
    [constructor|].
  rewrite number_from_app. apply Forall_app. split.
  - apply number_from_row. lia.
  - apply IH; [exact Hph|]. rewrite length_map, range_length. lia.
Qed.

(** X8.  Without mounting holes the pad at indices [(i, j)] carries the
    signal number [i * ph + j + 1]: the signals run down the columns of the
    grid, [ph] to a column. *)
Theorem signal_number_on_full_grid (args : Args) (pw ph : Z) (p : Pad) :
  args_no_mtg args = true ->
  In p (pads args pw ph) ->
  pad_signal p = pad_i p * ph + pad_j p + 1.
Proof.
  intros Hm Hp.
  assert (Hph : 0 <= ph)
    by (destruct (pads_In _ _ _ _ Hp) as [_ [Hj _]]; lia).
  revert p Hp. apply Forall_forall.
  rewrite pads_spec, surviving_no_mtg by exact Hm.
  unfold all_indices at 1, range at 2.
  apply number_from_columns; lia.
Qed.

Lemma signal_number_on_full_grid_witness :
  (args_no_mtg board_2x2 = true /\ In pad_2x2_third (pads board_2x2 2 2)) /\
  pad_signal pad_2x2_third =
    pad_i pad_2x2_third * 2 + pad_j pad_2x2_third + 1.
Proof.
  assert (Hp : In pad_2x2_third (pads board_2x2 2 2))
    by (right; right; left; reflexivity).
  split.
  - split; [reflexivity | exact Hp].
  - apply (signal_number_on_full_grid board_2x2 2 2 pad_2x2_third eq_refl Hp).
Defined.

(** ** When the script fails *)


(** ** The strings that the fraction pattern matches *)

Lemma span_digits_spec (s : list ascii) :
  s = (fst (span_digits s) ++ snd (span_digits s))%list /\
  forallb is_digit (fst (span_digits s)) = true /\
  starts_with_digit (snd (span_digits s)) = false.
Proof.
  induction s as [|c s [IH1 [IH2 IH3]]]; [repeat split|].
  cbn [span_digits]. destruct (is_digit c) eqn:E.
  - destruct (span_digits s) as [ds r]. cbn [fst snd] in *.
    split; [cbn [app]; now f_equal|].
    split; [cbn [forallb]; now rewrite E | exact IH3].
  - repeat split. cbn. exact E.
Qed.

Lemma span_digits_nonempty (ds r : list ascii) :
  digit_string ds -> fst (span_digits (ds ++ r)) <> [].
Proof.
  intros [Hne Hds]. destruct ds as [|c ds]; [contradiction|].
  cbn [forallb] in Hds. apply andb_true_iff in Hds. destruct Hds as [Hc _].
  cbn [app span_digits]. rewrite Hc.
  destruct (span_digits (ds ++ r)). discriminate.
Qed.

Lemma digits_plus_inv {A : Type} (s : list ascii)
      (k : list ascii -> option A) (a : A) :
  Re.digits_plus s k = Some a ->
  exists ds r, s = (ds ++ r)%list /\ digit_string ds /\ k r = Some a.
Proof.
  induction s as [|c s IH]; [discriminate|]. cbn [Re.digits_plus].
  destruct (is_digit c) eqn:Ec; [|discriminate].
  destruct (Re.digits_plus s k) as [a'|] eqn:E.
  - intros H. inversion H; subst a'.
    destruct (IH eq_refl) as [ds [r [-> [[Hne Hds] Hk]]]].
    exists (c :: ds), r. repeat split; [discriminate | | exact Hk].
    cbn [forallb]. now rewrite Ec.
  - intros Hk. exists [c], s. repeat split; [discriminate | | exact Hk].
    cbn [forallb]. now rewrite Ec.
Qed.

(** The tail [(\d+)/(\d+)] matches only a text [num/den...]. *)
Lemma run_num_den_inv (t : list ascii) (g m : Re.groups) :
  Re.run (Re.Cat (Re.Group 4 Re.Digits)
            (Re.Cat (Re.Chr "/") (Re.Group 5 Re.Digits)))
         t g (fun _ g' => Some g') = Some m ->
  exists num den rest,
    digit_string num /\ digit_string den /\
    starts_with_digit rest = false /\
    t = (num ++ "/"%char :: den ++ rest)%list.
Proof.
  cbn [Re.run]. intros H.
  apply digits_plus_inv in H. destruct H as [num [r [-> [Hn H]]]].
  destruct r as [|c r]; [discriminate|].
  destruct (Ascii.eqb "/" c) eqn:Ec; [|discriminate].
  apply Ascii.eqb_eq in Ec. subst c.
  apply digits_plus_inv in H. destruct H as [den0 [rest0 [-> [Hd _]]]].
  pose proof (span_digits_spec (den0 ++ rest0)) as [Hs [Hds Hr]].
  pose proof (span_digits_nonempty den0 rest0 Hd) as Hne.
  exists num, (fst (span_digits (den0 ++ rest0))),
    (snd (span_digits (den0 ++ rest0))).
  split; [exact Hn|]. split; [exact (conj Hne Hds)|]. split; [exact Hr|].
  do 2 f_equal. exact Hs.
Qed.

Lemma rematch_fraction_inv (s : string) (m : Re.groups) :
  Re.rematch re_fract s = Some m ->
  exists base num den rest,
    fraction_ok base num den /\ starts_with_digit rest = false /\
    s = fraction_then base num den rest /\
    m = fraction_groups base num den.
Proof.
  intros H0. assert (H := H0). unfold Re.rematch, re_fract in H.
  rewrite <- (string_of_list_ascii_of_string s) in H0 |- *.
  set (cs := list_ascii_of_string s) in *. clearbody cs.
  cbn [Re.run] in H.
  assert (Hform : exists base num den rest,
             fraction_ok base num den /\ starts_with_digit rest = false /\
             string_of_list_ascii cs = fraction_then base num den rest).
  { match type of H with
    | match ?X with Some _ => _ | None => _ end = _ =>
        destruct X as [m'|] eqn:E
    end.
    - inversion H; subst m'. clear H.
      apply digits_plus_inv in E. destruct E as [b [r [-> [Hb H]]]].
      destruct r as [|c r]; [discriminate|].
      destruct (Ascii.eqb "+" c) eqn:Ec; [|discriminate].
      apply Ascii.eqb_eq in Ec. subst c.
      pose proof (run_num_den_inv r _ m H)
        as [num [den [rest [Hn [Hd [Hr ->]]]]]].
      exists (Some b), num, den, rest.
      split; [exact (conj Hb (conj Hn Hd))|]. split; [exact Hr|].
      unfold fraction_then, fraction_text. f_equal.
      rewrite <- !app_assoc. reflexivity.
    - pose proof (run_num_den_inv cs _ m H)
        as [num [den [rest [Hn [Hd [Hr ->]]]]]].
      exists None, num, den, rest.
      split; [exact (conj I (conj Hn Hd))|]. split; [exact Hr|].
      unfold fraction_then, fraction_text. f_equal.
      cbn [app]. now rewrite <- app_assoc. }
  destruct Hform as [base [num [den [rest [Hok [Hr Hs]]]]]].
  exists base, num, den, rest.
  split; [exact Hok|]. split; [exact Hr|]. split; [exact Hs|].
  rewrite Hs, (ReFacts.rematch_fraction _ _ _ _ Hok Hr) in H0.
  now inversion H0.
Qed.


(** ** What [inch_arg] can do *)

Lemma digits_val_nonneg (ds : list ascii) : forall acc,
  forallb is_digit ds = true -> 0 <= acc -> acc <= digits_val acc ds.
Proof.
  induction ds as [|c ds IH]; intros acc Hds Hacc; cbn [digits_val]; [lia|].
  cbn [forallb] in Hds. apply andb_true_iff in Hds. destruct Hds as [Hc Hds].
  assert (0 <= digit_val c).
  { unfold is_digit in Hc. unfold digit_val.
    apply andb_true_iff in Hc. destruct Hc as [Hc _].
    apply Nat.leb_le in Hc. lia. }
  specialize (IH (10 * acc + digit_val c) Hds ltac:(lia)). lia.
Qed.

(** The cases of [inch_arg]. *)
Lemma inch_arg_cases (s : string) :
  (exists v, py_float s = Some v /\ inch_arg s = Ok v) \/
  (py_float s = None /\ Re.rematch re_fract s = None /\
   inch_arg s = Raise (ArgumentTypeError "bad argument value")) \/
  (exists base num den rest,
     py_float s = None /\
     fraction_ok base num den /\ starts_with_digit rest = false /\
     s = fraction_then base num den rest /\
     inch_arg s = (if digits_val 0 den =? 0 then Raise ZeroDivisionError
                   else Ok (fraction_value base num den))).
Proof.
  destruct (py_float s) as [v|] eqn:Hf.
  - left. exists v. split; [reflexivity|]. unfold inch_arg. now rewrite Hf.
  - right. destruct (Re.rematch re_fract s) as [m|] eqn:Hm.
    + right.
      destruct (rematch_fraction_inv s m Hm)
        as [base [num [den [rest [Hok [Hr [Hs _]]]]]]].
      exists base, num, den, rest.
      destruct (inch_arg_fraction base num den rest Hok Hr) as [_ [H1 H2]].
      rewrite <- Hs in H1, H2.
      split; [reflexivity|]. split; [exact Hok|]. split; [exact Hr|].
      split; [exact Hs|]. now rewrite H2.
    + left. split; [reflexivity|]. split; [reflexivity|].
      now apply unmatched_is_usage_error.
Qed.





Lemma fraction_value_nonneg base num den :
  fraction_ok base num den -> digits_val 0 den <> 0 ->
  (0 <= fraction_value base num den)%Q.
Proof.
  intros [Hb [[_ Hn] [_ Hd]]] Hz. unfold fraction_value.
  pose proof (digits_val_nonneg num 0 Hn ltac:(lia)) as Hn0.
  pose proof (digits_val_nonneg den 0 Hd ltac:(lia)) as Hd0.
  assert (Hb0 : 0 <= match base with
                     | Some b => digits_val 0 b
                     | None => 0
                     end).
  { destruct base as [b|]; [|lia].
    destruct Hb as [_ Hb]. now apply digits_val_nonneg. }
  set (b := match base with Some b => digits_val 0 b | None => 0 end) in *.
  set (n := digits_val 0 num) in *. set (d := digits_val 0 den) in *.
  rewrite !Qmult_1_l.
  assert (0 <= inject_Z b)%Q by (change 0%Q with (inject_Z 0);
                                 now rewrite <- Zle_Qle).
  assert (0 <= inject_Z n)%Q by (change 0%Q with (inject_Z 0);
                                 now rewrite <- Zle_Qle).
  assert (0 < inject_Z d)%Q by (change 0%Q with (inject_Z 0);
                                rewrite <- Zlt_Qlt; lia).
  assert (0 <= inject_Z n / inject_Z d)%Q.
  { apply Qle_shift_div_l; [assumption | lra]. }
  lra.
Qed.



(** ** The outline and the signals *)

(** X15.  Whatever the options, the document holds exactly four wires,
    which run from the origin through (0, height), (width, height) and
    (width, 0) back to the origin: each wire starts where the one before it
    ends. *)
Theorem outline_is_closed_rectangle (args : Args) (pw ph : Z) :
  pads_w args = Ok pw -> pads_h args = Ok ph ->
  exists doc,
    script args = Ok doc /\
    let o := Some "0.000" in
    let w := Some (fmt3 (in_to_mm (args_width args))) in
    let h := Some (fmt3 (in_to_mm (args_length args))) in
    map wire_ends (iter_tag "wire" doc) =
      [ ((o, o), (o, h)); ((o, h), (w, h));
        ((w, h), (w, o)); ((w, o), (o, o)) ].
Proof.
  intros Hw Hh. exists (eagle args pw ph).
  split; [now apply script_resolved|].
  rewrite iter_tag_wire. reflexivity.
Qed.

Lemma outline_is_closed_rectangle_witness :
  (pads_w board_2x2 = Ok 2 /\ pads_h board_2x2 = Ok 2) /\
  exists doc,
    script board_2x2 = Ok doc /\
    let o := Some "0.000" in
    let w := Some (fmt3 (in_to_mm (args_width board_2x2))) in
    let h := Some (fmt3 (in_to_mm (args_length board_2x2))) in
    map wire_ends (iter_tag "wire" doc) =
      [ ((o, o), (o, h)); ((o, h), (w, h));
        ((w, h), (w, o)); ((w, o), (o, o)) ].
Proof.
  split.
  - split; reflexivity.
  - apply (outline_is_closed_rectangle board_2x2 2 2); reflexivity.
Defined.

(** X16.  With a positive pitch a computed count does not shrink when the
    board grows: a wider board gets at least as many columns of pads. *)
Theorem computed_count_monotone (args args' : Args) :
  (0 < args_grid args)%Q -> args_grid args' = args_grid args ->
  args_w args = None -> args_w args' = None ->
  (args_width args <= args_width args')%Q ->
  exists pw pw',
    pads_w args = Ok pw /\ pads_w args' = Ok pw' /\ pw <= pw'.
Proof.
  intros Hg Eg Hn Hn' Hle.
  assert (Hnz : ~ (args_grid args == 0)%Q) by (intros E; rewrite E in Hg; lra).
  exists (Qfloor ((args_width args - border) / args_grid args)),
    (Qfloor ((args_width args' - border) / args_grid args)).
  split; [now apply pads_w_computed|].
  split; [rewrite <- Eg; apply pads_w_computed; [exact Hn' | now rewrite Eg]|].
  apply Qfloor_resp_le. unfold Qdiv. apply Qmult_le_compat_r; [lra|].
  apply Qlt_le_weak, Qinv_lt_0_compat, Hg.
Qed.

Lemma computed_count_monotone_witness :
  ((0 < args_grid board_2x3_default)%Q /\
   args_grid board_3x3_default = args_grid board_2x3_default /\
   args_w board_2x3_default = None /\ args_w board_3x3_default = None /\
   (args_width board_2x3_default <= args_width board_3x3_default)%Q) /\
  exists pw pw',
    pads_w board_2x3_default = Ok pw /\
    pads_w board_3x3_default = Ok pw' /\ pw <= pw'.
Proof.
  split.
  - repeat split. intros H; discriminate H.
  - apply (computed_count_monotone board_2x3_default board_3x3_default);
      try reflexivity. intros H; discriminate H.
Defined.

